(** * The 8-puzzle variant with automatic swaps: board, moves, heuristics, A*

    A shallow embedding of [puzzle/state.py], [puzzle/game.py],
    [algorithm/heuristics.py] and [algorithm/astar.py].

    Python integers are [Z].  A numpy 3x3 integer array is a record of nine
    cells.  Dictionaries are [gmap]s and the explored set is a [gset]; both
    are keyed by the board, because [State.__eq__] and [State.__hash__] look
    at the board only.  Exceptions and the two [while] loops are made
    explicit by the [outcome] type. *)

From stdpp Require Import gmap list sorting.
From Stdlib Require Import ZArith Lia.

Local Open Scope Z_scope.

(* ===================================================================== *)
(** * Outcomes of Python calls *)
(* ===================================================================== *)

Inductive exn := IndexError | KeyError | OverflowError.

(** [OutOfFuel] is the only artefact of the embedding: a [while] loop that
    did not finish within the given number of iterations. *)
Inductive outcome (A : Type) :=
| Return (a : A)
| Raise (e : exn)
| OutOfFuel.
Arguments Return {A} a.
Arguments Raise {A} e.
Arguments OutOfFuel {A}.

(** Sequencing: an exception (or missing fuel) aborts what follows.  The
    instances give [x ← m; k] and [mret] for [outcome]. *)
#[global] Instance outcome_ret : MRet outcome := λ A a, Return a.
#[global] Instance outcome_bind : MBind outcome := λ A B k m,
  match m with
  | Return a => k a
  | Raise e => Raise e
  | OutOfFuel => OutOfFuel
  end.

(* ===================================================================== *)
(** * Boards: 3x3 integer arrays *)
(* ===================================================================== *)

Record Board := mkBoard {
  c00 : Z; c01 : Z; c02 : Z;
  c10 : Z; c11 : Z; c12 : Z;
  c20 : Z; c21 : Z; c22 : Z
}.

(** Row-major contents, as [board.flatten()] / [board.tobytes()] see them. *)
Definition cells (b : Board) : list Z :=
  [c00 b; c01 b; c02 b; c10 b; c11 b; c12 b; c20 b; c21 b; c22 b].

Definition of_cells (l : list Z) : option Board :=
  match l with
  | [a; b; c; d; e; f; g; h; i] => Some (mkBoard a b c d e f g h i)
  | _ => None
  end.

#[global] Instance Board_eq_dec : EqDecision Board.
Proof. solve_decision. Defined.

#[global] Instance Board_countable : Countable Board.
Proof.
  apply (inj_countable cells of_cells). by intros [].
Defined.

(** [b[i, j]] for indices inside [range(3)]; the value outside that range is
    never used by the embedding (see [getitem] for unchecked indices). *)
Definition get (b : Board) (i j : Z) : Z :=
  match i, j with
  | 0, 0 => c00 b | 0, 1 => c01 b | 0, 2 => c02 b
  | 1, 0 => c10 b | 1, 1 => c11 b | 1, 2 => c12 b
  | 2, 0 => c20 b | 2, 1 => c21 b | 2, 2 => c22 b
  | _, _ => 0
  end.

(** [b[i, j] = v] for indices inside [range(3)]. *)
Definition set (b : Board) (i j : Z) (v : Z) : Board :=
  let '(mkBoard x00 x01 x02 x10 x11 x12 x20 x21 x22) := b in
  match i, j with
  | 0, 0 => mkBoard v x01 x02 x10 x11 x12 x20 x21 x22
  | 0, 1 => mkBoard x00 v x02 x10 x11 x12 x20 x21 x22
  | 0, 2 => mkBoard x00 x01 v x10 x11 x12 x20 x21 x22
  | 1, 0 => mkBoard x00 x01 x02 v x11 x12 x20 x21 x22
  | 1, 1 => mkBoard x00 x01 x02 x10 v x12 x20 x21 x22
  | 1, 2 => mkBoard x00 x01 x02 x10 x11 v x20 x21 x22
  | 2, 0 => mkBoard x00 x01 x02 x10 x11 x12 v x21 x22
  | 2, 1 => mkBoard x00 x01 x02 x10 x11 x12 x20 v x22
  | 2, 2 => mkBoard x00 x01 x02 x10 x11 x12 x20 x21 v
  | _, _ => b
  end.

(** numpy index normalisation along an axis of length 3: [-3 .. -1] wrap
    around, anything else outside [0 .. 2] is an [IndexError]. *)
Definition norm_index (n : Z) : outcome Z :=
  if bool_decide (0 ≤ n < 3) then Return n
  else if bool_decide (-3 ≤ n < 0) then Return (n + 3)
  else Raise IndexError.

(** [b[i, j]] and [b[i, j] = v] for arbitrary integers [i], [j]. *)
Definition getitem (b : Board) (i j : Z) : outcome Z :=
  i' ← norm_index i; j' ← norm_index j; Return (get b i' j').

Definition setitem (b : Board) (i j : Z) (v : Z) : outcome Board :=
  i' ← norm_index i; j' ← norm_index j; Return (set b i' j' v).

(** [for i in range(3): for j in range(3)], in iteration order. *)
Definition range3 : list Z := [0; 1; 2].
Definition grid : list (Z * Z) := i ← range3; j ← range3; [(i, j)].

(* ===================================================================== *)
(** * puzzle/state.py : State *)
(* ===================================================================== *)

Record State := mkState { board : Board; blank_pos : Z * Z }.

#[global] Instance State_eq_dec : EqDecision State.
Proof. solve_decision. Defined.

(** [State.__eq__]: [np.array_equal(self.board, other.board)]. *)
Definition State_eq (s t : State) : bool := bool_decide (board s = board t).

(** [State._find_blank]: the first zero in row-major order;
    [blank_pos[0][0]] raises [IndexError] when there is none. *)
Definition _find_blank (b : Board) : outcome (Z * Z) :=
  match filter (λ p, get b p.1 p.2 = 0) grid with
  | p :: _ => Return p
  | [] => Raise IndexError
  end.

(** The values a cell of an array of [dtype=int] can hold: 64-bit signed
    integers (numpy's default integer on 64-bit platforms). *)
Definition int64 (z : Z) : Prop := - 2 ^ 63 ≤ z < 2 ^ 63.

(** [np.array(board, dtype=int)] on a 3x3 nested list of Python integers:
    the cells are stored as they are, and a value that does not fit into
    64 bits raises [OverflowError]. *)
Definition np_array (b : Board) : outcome Board :=
  if bool_decide (Forall int64 (cells b)) then Return b else Raise OverflowError.

(** [State.__init__]: the board is converted first, then
    [blank_pos or self._find_blank()]; a pair is truthy. *)
Definition State_init (b : Board) (bp : option (Z * Z)) : outcome State :=
  arr ← np_array b;
  match bp with
  | Some p => Return (mkState arr p)
  | None => p ← _find_blank arr; Return (mkState arr p)
  end.

(** [State.is_goal]. *)
Definition is_goal (s : State) (goal_states : list Board) : bool :=
  existsb (λ goal, bool_decide (board s = goal)) goal_states.

(* ===================================================================== *)
(** * puzzle/game.py : PuzzleGame *)
(* ===================================================================== *)

Record PuzzleGame := mkGame { goal_states : list Board }.

(** [PuzzleGame.__init__]. *)
Definition PuzzleGame_init : PuzzleGame :=
  mkGame [ mkBoard 1 2 3 4 5 6 7 8 0;
           mkBoard 8 7 6 5 4 3 2 1 0;
           mkBoard 0 1 2 3 4 5 6 7 8;
           mkBoard 0 8 7 6 5 4 3 2 1 ].

Definition _are_adjacent (i1 j1 i2 j2 : Z) : bool :=
  ((Z.abs (i1 - i2) =? 1) && (j1 =? j2)) || ((Z.abs (j1 - j2) =? 1) && (i1 =? i2)).

(** The [positions] dictionary of [apply_special_rules]: the scan keeps the
    last cell (in row-major order) holding each of 1, 2, 3, 4. *)
Definition special_positions (b : Board) : gmap Z (Z * Z) :=
  foldl (λ positions p,
           if bool_decide (get b p.1 p.2 ∈ [1; 2; 3; 4])
           then <[get b p.1 p.2 := p]> positions else positions)
        ∅ grid.

(** [b[p], b[q] = b[q], b[p]]: the right-hand side is read first. *)
Definition swap_cells (b : Board) (p q : Z * Z) : Board :=
  let vp := get b p.1 p.2 in
  let vq := get b q.1 q.2 in
  set (set b p.1 p.2 vq) q.1 q.2 vp.

(** One of the two rules: swap the cells recorded for [x] and [y] in
    [positions] when both are recorded and the cells are adjacent. *)
Definition swap_if_adjacent (positions : gmap Z (Z * Z)) (x y : Z) (b : Board) : Board :=
  match positions !! x, positions !! y with
  | Some px, Some py =>
      if _are_adjacent px.1 px.2 py.1 py.2 then swap_cells b px py else b
  | _, _ => b
  end.

(** [PuzzleGame.apply_special_rules], on the array it mutates.  The
    positions are collected once, before either swap. *)
Definition apply_special_rules_board (b : Board) : Board :=
  let positions := special_positions b in
  let b1 := swap_if_adjacent positions 1 3 b in
  swap_if_adjacent positions 2 4 b1.

Definition apply_special_rules (game : PuzzleGame) (state : State) : State :=
  mkState (apply_special_rules_board (board state)) (blank_pos state).

(** [PuzzleGame.is_solvable]. *)
Definition is_solvable (game : PuzzleGame) (state : State) : bool := true.

(** [State.get_neighbors].  [new_i], [new_j] are range-checked by the code;
    [i], [j] come from the cached [blank_pos] and are not. *)
Definition moves : list (Z * Z) := [(-1, 0); (1, 0); (0, -1); (0, 1)].

Definition slide (game : PuzzleGame) (s : State) (d : Z * Z) : outcome (option State) :=
  let '(i, j) := blank_pos s in
  let new_i := i + d.1 in
  let new_j := j + d.2 in
  if bool_decide (0 ≤ new_i < 3) && bool_decide (0 ≤ new_j < 3) then
    v ← getitem (board s) new_i new_j;
    b1 ← setitem (board s) i j v;
    b2 ← setitem b1 new_i new_j 0;
    Return (Some (apply_special_rules game (mkState b2 (new_i, new_j))))
  else Return None.

Fixpoint neighbors_along (game : PuzzleGame) (s : State) (ms : list (Z * Z))
  : outcome (list State) :=
  match ms with
  | [] => Return []
  | d :: ms' =>
      o ← slide game s d;
      rest ← neighbors_along game s ms';
      Return (match o with Some n => n :: rest | None => rest end)
  end.

Definition get_neighbors (s : State) (game : PuzzleGame) : outcome (list State) :=
  neighbors_along game s moves.

(* ===================================================================== *)
(** * algorithm/heuristics.py *)
(* ===================================================================== *)

(** The value of a heuristic: a Python integer, or [float('inf')]. *)
Inductive hval := Fin (z : Z) | Inf.

#[global] Instance hval_eq_dec : EqDecision hval.
Proof. solve_decision. Defined.

(** [a < b] on such numbers. *)
Definition hlt (a b : hval) : bool :=
  match a, b with
  | Fin x, Fin y => x <? y
  | Fin _, Inf => true
  | Inf, _ => false
  end.

Definition hle (a b : hval) : bool := negb (hlt b a).

(** Python's [min(a, b)]: [b] only when [b < a]. *)
Definition hmin (a b : hval) : hval := if hlt b a then b else a.

(** [g + h] for an integer [g]. *)
Definition hadd (g : Z) (h : hval) : hval :=
  match h with Fin z => Fin (g + z) | Inf => Inf end.

(** [goal_positions] of [manhattan_distance]: non-blank value to its cell. *)
Definition goal_positions (goal : Board) : gmap Z (Z * Z) :=
  foldl (λ positions p,
           if bool_decide (get goal p.1 p.2 ≠ 0)
           then <[get goal p.1 p.2 := p]> positions else positions)
        ∅ grid.

(** The inner double loop of [manhattan_distance] for one goal. *)
Definition manhattan_to (b goal : Board) : Z :=
  let positions := goal_positions goal in
  foldl (λ distance p,
           if bool_decide (get b p.1 p.2 ≠ 0) then
             match positions !! get b p.1 p.2 with
             | Some g => distance + (Z.abs (p.1 - g.1) + Z.abs (p.2 - g.2))
             | None => distance
             end
           else distance)
        0 grid.

Definition manhattan_distance (state : State) (goal_states : list Board) : hval :=
  foldl (λ min_distance goal,
           hmin min_distance (Fin (manhattan_to (board state) goal)))
        Inf goal_states.

(** The generator sum of [misplaced_tiles] for one goal. *)
Definition misplaced_to (b goal : Board) : Z :=
  foldl (λ misplaced p,
           if bool_decide (get b p.1 p.2 ≠ 0) && bool_decide (get b p.1 p.2 ≠ get goal p.1 p.2)
           then misplaced + 1 else misplaced)
        0 grid.

Definition misplaced_tiles (state : State) (goal_states : list Board) : hval :=
  foldl (λ min_misplaced goal,
           hmin min_misplaced (Fin (misplaced_to (board state) goal)))
        Inf goal_states.

(* ===================================================================== *)
(** * algorithm/astar.py : AStar *)
(* ===================================================================== *)

(** ** The frontier

    [heapq] belongs to the Python library; it is modelled by its contract.
    Entries are the tuples [(f, counter, state)].  The counter of every
    entry pushed by [search] is fresh, so tuple comparison is decided by
    [(f, counter)] and never reaches the state.  The queue is kept ordered
    by that key, so that [heappop] takes the head: it is the smallest entry,
    as with the binary heap, and [len] is the number of entries. *)
Definition entry : Type := hval * Z * State.

Definition entry_lt (x y : entry) : bool :=
  let '(fx, cx, _) := x in
  let '(fy, cy, _) := y in
  hlt fx fy || (bool_decide (fx = fy) && (cx <? cy)).

Fixpoint heappush (heap : list entry) (x : entry) : list entry :=
  match heap with
  | [] => [x]
  | y :: heap' => if entry_lt x y then x :: y :: heap' else y :: heappush heap' x
  end.

Definition heappop (heap : list entry) : option (entry * list entry) :=
  match heap with
  | [] => None
  | x :: heap' => Some (x, heap')
  end.

(** ** The engine object and the local variables of [search] *)

Record AStar := mkAStar {
  game : PuzzleGame;
  heuristic_func : State → list Board → hval;
  nodes_expanded : Z;
  max_frontier_size : Z;
  search_tree : list (State * State)
}.

(** [AStar.__init__]. *)
Definition AStar_init (game : PuzzleGame) (heuristic_func : State → list Board → hval) : AStar :=
  mkAStar game heuristic_func 0 0 [].

Record Locals := mkLocals {
  open_set : list entry;
  closed_set : gset Board;
  g_values : gmap Board Z;
  parent : gmap Board (option State);
  counter : Z
}.

(** [AStar._reconstruct_path]: [path] is built goal first and reversed at
    the end; [parent[current]] raises [KeyError] on a missing key. *)
Fixpoint reconstruct_loop (fuel : nat) (parent : gmap Board (option State))
    (current : State) (path : list State) : outcome (list State) :=
  match fuel with
  | O => OutOfFuel
  | S fuel' =>
      match parent !! board current with
      | None => Raise KeyError
      | Some None => Return (reverse path)
      | Some (Some p) => reconstruct_loop fuel' parent p (path ++ [p])
      end
  end.

Definition _reconstruct_path (fuel : nat) (parent : gmap Board (option State))
    (current : State) : outcome (list State) :=
  reconstruct_loop fuel parent current [current].

(** The body of [for neighbor in current.get_neighbors(self.game)]. *)
Definition relax (current : State) (current_g : Z) (acc : AStar * Locals)
    (neighbor : State) : AStar * Locals :=
  let '(self, l) := acc in
  if bool_decide (board neighbor ∈ closed_set l) then acc else
  let new_g := current_g + 1 in
  if match g_values l !! board neighbor with
     | Some g => new_g >=? g
     | None => false
     end
  then acc else
  let parent' := <[board neighbor := Some current]> (parent l) in
  let g_values' := <[board neighbor := new_g]> (g_values l) in
  let search_tree' := search_tree self ++ [(current, neighbor)] in
  let h := heuristic_func self neighbor (goal_states (game self)) in
  let f := hadd new_g h in
  let counter' := counter l + 1 in
  (mkAStar (game self) (heuristic_func self) (nodes_expanded self)
           (max_frontier_size self) search_tree',
   mkLocals (heappush (open_set l) (f, counter', neighbor)) (closed_set l)
            g_values' parent' counter').

(** The [while open_set:] loop; one unit of fuel per iteration. *)
Fixpoint search_loop (fuel : nat) (self : AStar) (l : Locals)
  : AStar * outcome (option (list State)) :=
  match fuel with
  | O => (self, OutOfFuel)
  | S fuel' =>
      match heappop (open_set l) with
      | None => (self, Return None)
      | Some ((_, _, current), open_set') =>
          let self1 :=
            mkAStar (game self) (heuristic_func self) (nodes_expanded self)
                    (Z.max (max_frontier_size self) (Z.of_nat (length (open_set l))))
                    (search_tree self) in
          if is_goal current (goal_states (game self)) then
            (self1, path ← _reconstruct_path fuel' (parent l) current; Return (Some path))
          else if bool_decide (board current ∈ closed_set l) then
            search_loop fuel' self1
              (mkLocals open_set' (closed_set l) (g_values l) (parent l) (counter l))
          else
            let closed_set' := closed_set l ∪ {[board current]} in
            let self2 :=
              mkAStar (game self1) (heuristic_func self1) (nodes_expanded self1 + 1)
                      (max_frontier_size self1) (search_tree self1) in
            match g_values l !! board current with
            | None => (self2, Raise KeyError)
            | Some current_g =>
                match get_neighbors current (game self) with
                | Return neighbors =>
                    let '(self3, l3) :=
                      foldl (relax current current_g)
                            (self2, mkLocals open_set' closed_set' (g_values l)
                                             (parent l) (counter l))
                            neighbors in
                    search_loop fuel' self3 l3
                | Raise e => (self2, Raise e)
                | OutOfFuel => (self2, OutOfFuel)
                end
            end
      end
  end.

(** [AStar.search]: the engine after the call, and what the call did. *)
Definition search (fuel : nat) (self : AStar) (initial_state : State)
  : AStar * outcome (option (list State)) :=
  if negb (is_solvable (game self) initial_state) then (self, Return None) else
  let g_values := {[board initial_state := 0]} in
  let parent := {[board initial_state := None]} in
  let h := heuristic_func self initial_state (goal_states (game self)) in
  let counter := 0 in
  let open_set := heappush [] (h, counter, initial_state) in
  search_loop fuel self (mkLocals open_set ∅ g_values parent counter).

(** [AStar.get_search_tree]; [None] is Python's [max_nodes=None].
    A slice [xs[:n]] with negative [n] drops the last [-n] items. *)
Definition get_search_tree (self : AStar) (max_nodes : option Z) : list (State * State) :=
  match max_nodes with
  | Some n =>
      if bool_decide (0 ≤ n) then take (Z.to_nat n) (search_tree self)
      else take (length (search_tree self) - Z.to_nat (- n)) (search_tree self)
  | None => search_tree self
  end.

(* ===================================================================== *)
(** * utils/experiment.py and utils/visualizer.py: the pure parts *)
(* ===================================================================== *)

(** [generate_random_state]. [random.shuffle(nums)] is modelled by its
    outcome, the shuffled list; [np.array(nums).reshape(3, 3)] lays the nine
    items out row by row. The result is [None] for a list that is no
    outcome of shuffling nine items. *)
Definition generate_random_state (nums : list Z) : option (outcome State) :=
  b ← of_cells nums; Some (State_init b None).

(** [generate_solvable_state]: one shuffled list per iteration of
    [while True]; running out of draws stands for a loop still running. *)
Fixpoint generate_solvable_state (game : PuzzleGame) (draws : list (list Z))
  : option (outcome State) :=
  match draws with
  | [] => Some OutOfFuel
  | nums :: draws' =>
      match generate_random_state nums with
      | Some (Return state) =>
          if is_solvable game state then Some (Return state)
          else generate_solvable_state game draws'
      | other => other
      end
  end.

(** The [add_edge] calls of [visualize_search_tree], in order: the node
    labels are the flattened boards. *)
Definition visualize_search_tree (search_tree : list (State * State)) (max_nodes : option Z)
  : list (list Z * list Z) :=
  let shown :=
    match max_nodes with
    | Some n =>
        if bool_decide (n < Z.of_nat (length search_tree)) then
          (if bool_decide (0 ≤ n) then take (Z.to_nat n) search_tree
           else take (length search_tree - Z.to_nat (- n)) search_tree)
        else search_tree
    | None => search_tree
    end in
  (λ pc, (cells (board pc.1), cells (board pc.2))) <$> shown.

(** [create_tree_visualization_function(n)]. *)
Definition create_tree_visualization_function (n : Z)
  : list (State * State) → list (list Z * list Z) :=
  λ search_tree, visualize_search_tree search_tree (Some n).

(* ===================================================================== *)
(** * Specification vocabulary *)
(* ===================================================================== *)

Definition in_range (i : Z) : Prop := 0 ≤ i < 3.

(** The data-model invariant of a Board State. *)
Definition valid_board (b : Board) : Prop := cells b ≡ₚ [0; 1; 2; 3; 4; 5; 6; 7; 8].

Definition valid_state (s : State) : Prop :=
  valid_board (board s) ∧
  in_range (blank_pos s).1 ∧ in_range (blank_pos s).2 ∧
  get (board s) (blank_pos s).1 (blank_pos s).2 = 0.

(** One transition of the move model: [q] is among [p.get_neighbors(game)]. *)
Definition step (game : PuzzleGame) (p q : State) : Prop :=
  ∃ ns, get_neighbors p game = Return ns ∧ q ∈ ns.

(** Consecutive elements of a list are related. *)
Fixpoint chain {A} (R : A → A → Prop) (l : list A) : Prop :=
  match l with
  | x :: l' => match l' with y :: _ => R x y | [] => True end ∧ chain R l'
  | [] => True
  end.

(** A goal is reached from [s] with exactly [k] transitions, each of cost 1. *)
Inductive reaches_goal (game : PuzzleGame) : nat → State → Prop :=
| reaches_here s :
    is_goal s (goal_states game) = true → reaches_goal game 0 s
| reaches_step k s t :
    step game s t → reaches_goal game k t → reaches_goal game (S k) s.

(** [k] is the true shortest-path cost from [s] to the nearest goal. *)
Definition shortest_cost (game : PuzzleGame) (s : State) (k : nat) : Prop :=
  reaches_goal game k s ∧ ∀ k', reaches_goal game k' s → (k ≤ k')%nat.

(** Executable bounded search used to evaluate [shortest_cost]: a goal is
    reachable from [s] with at most [k] transitions. *)
Fixpoint reach_within (game : PuzzleGame) (k : nat) (s : State) : bool :=
  is_goal s (goal_states game) ||
  match k with
  | O => false
  | S k' =>
      match get_neighbors s game with
      | Return ns => existsb (reach_within game k') ns
      | _ => false
      end
  end.

(** ** The sequenced procedure of the automatic swap rule

    Written from the words of the specification, with none of the helpers
    of the embedded code ([special_positions], [_are_adjacent],
    [swap_cells], [swap_if_adjacent]). *)

(** The cell holding [v]: a Board State has exactly one; on an array where
    several cells hold [v] it is the last of them in row-major order, and
    there is none where no cell holds [v]. *)
Definition cell_holding (v : Z) (b : Board) : option (Z * Z) :=
  last (filter (λ p, get b p.1 p.2 = v) grid).

(** [q] is one of the four cells above, below, left and right of [p]. *)
Definition orthogonally_adjacent (p q : Z * Z) : bool :=
  bool_decide (q ∈ [(p.1 - 1, p.2); (p.1 + 1, p.2); (p.1, p.2 - 1); (p.1, p.2 + 1)]).

(** The board on which the contents of the cells [p] and [q] have changed
    places and every other cell is as before. *)
Definition exchanged (p q : Z * Z) (b : Board) : Board :=
  let content r :=
    if decide (r = p) then get b q.1 q.2
    else if decide (r = q) then get b p.1 p.2
    else get b r.1 r.2 in
  mkBoard (content (0, 0)) (content (0, 1)) (content (0, 2))
          (content (1, 0)) (content (1, 1)) (content (1, 2))
          (content (2, 0)) (content (2, 1)) (content (2, 2)).

(** One step of the procedure: if the cells holding [x] and [y] are
    orthogonally adjacent, they are swapped; otherwise the board stays. *)
Definition swap_pair_if_adjacent (x y : Z) (b : Board) : Board :=
  match cell_holding x b, cell_holding y b with
  | Some p, Some q => if orthogonally_adjacent p q then exchanged p q b else b
  | _, _ => b
  end.

(** First the (1,3) step, then the (2,4) step on the board as it stands
    after the (1,3) step: the cells holding 2 and 4 are looked up, and
    their adjacency judged, on that board. *)
Definition apply_special_rules_sequenced (state : State) : State :=
  let b1 := swap_pair_if_adjacent 1 3 (board state) in
  let b2 := swap_pair_if_adjacent 2 4 b1 in
  mkState b2 (blank_pos state).

(** ** Vocabulary of the proofs *)

(** Row-major offset of a cell. *)
Definition offset (i j : Z) : nat := Z.to_nat (3 * i + j).

(** Both [positions] in [apply_special_rules] and [goal_positions] in
    [manhattan_distance] are the same scan with a different filter. *)
Definition scan (test : Z → bool) (b : Board) (l : list (Z * Z))
    (m : gmap Z (Z * Z)) : gmap Z (Z * Z) :=
  foldl (λ positions p,
           if test (get b p.1 p.2) then <[get b p.1 p.2 := p]> positions else positions)
        m l.

(** [d] is the least element of [l]. *)
Definition is_minimum (d : Z) (l : list Z) : Prop := d ∈ l ∧ ∀ x, x ∈ l → d ≤ x.

(** The running minimum kept by both heuristics. *)
Definition running_min (f : Board → Z) (acc : hval) (goals : list Board) : hval :=
  foldl (λ m goal, hmin m (Fin (f goal))) acc goals.

(** ** Bookkeeping of the search loop *)

(** What the body of the neighbor loop does when it records a path. *)
Definition relax_record (current : State) (current_g : Z) (self : AStar)
    (l : Locals) (neighbor : State) : AStar * Locals :=
  (mkAStar (game self) (heuristic_func self) (nodes_expanded self)
           (max_frontier_size self) (search_tree self ++ [(current, neighbor)]),
   mkLocals
     (heappush (open_set l)
        (hadd (current_g + 1) (heuristic_func self neighbor (goal_states (game self))),
         counter l + 1, neighbor))
     (closed_set l)
     (<[board neighbor := current_g + 1]> (g_values l))
     (<[board neighbor := Some current]> (parent l))
     (counter l + 1)).

(** The facts about [parent], [g_values] and the frontier that hold at
    the head of every iteration of the main loop. *)
Record search_inv (gm : PuzzleGame) (s0 : State) (l : Locals) : Prop := {
  inv_root : parent l !! board s0 = Some None;
  inv_root_only : ∀ k, parent l !! k = Some None → k = board s0;
  inv_parent : ∀ k p, parent l !! k = Some (Some p) →
                 valid_state p ∧ ∃ n, step gm p n ∧ board n = k;
  inv_open : ∀ e, e ∈ open_set l → valid_state e.2;
  inv_g_root : g_values l !! board s0 = Some 0;
  inv_g_nonneg : ∀ k g, g_values l !! k = Some g → 0 ≤ g
}.

(** The facts about the state being expanded that the neighbor loop keeps. *)
Definition expanding (current : State) (current_g : Z) (l : Locals) : Prop :=
  board current ∈ closed_set l ∧
  g_values l !! board current = Some current_g ∧
  is_Some (parent l !! board current) ∧
  current_g + 1 ≤ Z.of_nat (size (closed_set l)).

(** What the loop needs, beyond [search_inv], to run without a [KeyError]
    and to stop. *)
Record search_wf (gm : PuzzleGame) (s0 : State) (l : Locals) : Prop := {
  wf_inv : search_inv gm s0 l;
  wf_open_g : ∀ e, e ∈ open_set l → is_Some (g_values l !! board e.2);
  wf_open_parent : ∀ e, e ∈ open_set l → is_Some (parent l !! board e.2);
  wf_closed_valid : ∀ k, k ∈ closed_set l → valid_board k;
  wf_parent_g : ∀ k p, parent l !! k = Some (Some p) →
                  board p ∈ closed_set l ∧ is_Some (parent l !! board p) ∧
                  ∃ gp, g_values l !! board p = Some gp ∧ g_values l !! k = Some (gp + 1);
  wf_g_bound : ∀ k g, g_values l !! k = Some g → g ≤ Z.of_nat (size (closed_set l))
}.

(** The number of loop iterations still possible: every pending entry is
    popped once, and every board not yet explored adds at most four. *)
Definition work_left (all_boards : gset Board) (l : Locals) : nat :=
  (length (open_set l) + 5 * size (all_boards ∖ closed_set l))%nat.

(** The counters of [e] replayed on top of the counters of [base]. *)
Definition rebase (base e : AStar) : AStar :=
  mkAStar (game e) (heuristic_func e)
          (nodes_expanded base + nodes_expanded e)
          (Z.max (max_frontier_size base) (max_frontier_size e))
          (search_tree base ++ search_tree e).

Definition rebase_result {A} (base : AStar) (r : AStar * A) : AStar * A :=
  (rebase base r.1, r.2).

(** Two engines that [search] cannot tell apart: the same game, heuristics
    that agree on every argument, and equal counters. *)
Definition same_setup (a b : AStar) : Prop :=
  game a = game b ∧
  (∀ s goals, heuristic_func a s goals = heuristic_func b s goals) ∧
  nodes_expanded a = nodes_expanded b ∧
  max_frontier_size a = max_frontier_size b.

(** The cells the blank can move to from [(i, j)], in the order of [moves]. *)
Definition blank_targets (i j : Z) : list (Z * Z) :=
  filter (λ p, in_range p.1 ∧ in_range p.2) [(i - 1, j); (i + 1, j); (i, j - 1); (i, j + 1)].

(** What one cell adds to the two per-goal estimates. *)
Definition misplaced_delta (b goal : Board) (p : Z * Z) : Z :=
  if bool_decide (get b p.1 p.2 ≠ 0) && bool_decide (get b p.1 p.2 ≠ get goal p.1 p.2)
  then 1 else 0.

Definition manhattan_delta (b goal : Board) (p : Z * Z) : Z :=
  if bool_decide (get b p.1 p.2 ≠ 0) then
    match goal_positions goal !! get b p.1 p.2 with
    | Some g => Z.abs (p.1 - g.1) + Z.abs (p.2 - g.2)
    | None => 0
    end
  else 0.

(** [q]'s recorded predecessor is [p]. *)
Definition parent_link (par : gmap Board (option State)) (p q : State) : Prop :=
  par !! board q = Some (Some p).

(** The engine with its expansion count and log cleared. *)
Definition cleared (self : AStar) : AStar :=
  mkAStar (game self) (heuristic_func self) 0 (max_frontier_size self) [].

(** Coverage: every board with a recorded cost is explored or pending, and
    every explored state is no goal and has all its neighbors recorded. *)
Record search_cover (gm : PuzzleGame) (l : Locals) : Prop := {
  cov_g : ∀ k, is_Some (g_values l !! k) →
            k ∈ closed_set l ∨ ∃ e, e ∈ open_set l ∧ board e.2 = k;
  cov_closed_g : ∀ k, k ∈ closed_set l → is_Some (g_values l !! k);
  cov_closed : ∀ t, valid_state t → board t ∈ closed_set l →
                 is_goal t (goal_states gm) = false ∧
                 ∀ n, step gm t n → is_Some (g_values l !! board n)
}.

(** The instrumentation against the bookkeeping: the log holds transitions
    only, every parent link was logged, and expansions are counted by the
    explored set. *)
Record search_log (gm : PuzzleGame) (n0 : Z) (self : AStar) (l : Locals) : Prop := {
  log_edges : ∀ pc, pc ∈ search_tree self → valid_state pc.1 ∧ step gm pc.1 pc.2;
  log_parent : ∀ k p, parent l !! k = Some (Some p) →
                 ∃ n, board n = k ∧ (p, n) ∈ search_tree self;
  log_count : nodes_expanded self = n0 + Z.of_nat (size (closed_set l))
}.

(** ** Reachability, executable *)

(** Reachability in the move model. *)
Definition reachable (game : PuzzleGame) : State → State → Prop := rtc (step game).

Definition stepb (game : PuzzleGame) (p q : State) : bool :=
  match get_neighbors p game with
  | Return ns => bool_decide (q ∈ ns)
  | _ => false
  end.

(** ** States used in the examples *)

(** The default start state of [main.py]. *)
Definition middle_state : State := mkState (mkBoard 1 2 3 4 0 5 7 8 6) (1, 1).

(** Four slides away from the default start state of [main.py]. *)
Definition overestimated_state : State := mkState (mkBoard 0 4 3 1 2 5 7 8 6) (0, 0).

(** Start state on which the Manhattan-guided search takes a detour. *)
Definition detour_state : State := mkState (mkBoard 3 4 1 2 6 8 7 0 5) (2, 1).

(** A board on which the rule fires: 1 and 3 are side by side. *)
Definition swapping_state : State := mkState (mkBoard 1 3 2 4 0 5 6 7 8) (1, 1).

(** A board on which both rules fire: 1 beside 3, and 2 beside 4. *)
Definition swapping_twice_state : State := mkState (mkBoard 1 3 0 2 4 5 6 7 8) (0, 2).

(* ===================================================================== *)
(** * Arrays: reading and writing cells *)
(* ===================================================================== *)

Lemma in_range_cases i : in_range i → i = 0 ∨ i = 1 ∨ i = 2.
Proof. unfold in_range. lia. Qed.

Ltac range_cases H :=
  apply in_range_cases in H; destruct H as [-> | [-> | ->]].

Lemma grid_in_range p : p ∈ grid → in_range p.1 ∧ in_range p.2.
Proof.
  intros Hp. assert (Hall : Forall (λ p, in_range p.1 ∧ in_range p.2) grid).
  { unfold in_range. repeat constructor; simpl; lia. }
  by apply (proj1 (Forall_forall _ _) Hall).
Qed.

Lemma in_range_grid i j : in_range i → in_range j → (i, j) ∈ grid.
Proof.
  intros Hi Hj. range_cases Hi; range_cases Hj; cbv [grid range3]; simpl; set_solver.
Qed.

Lemma get_set_eq b i j v : in_range i → in_range j → get (set b i j v) i j = v.
Proof. intros Hi Hj. destruct b. by range_cases Hi; range_cases Hj. Qed.

Lemma get_set_ne b i j i' j' v :
  in_range i → in_range j → in_range i' → in_range j' →
  (i, j) ≠ (i', j') → get (set b i j v) i' j' = get b i' j'.
Proof.
  intros Hi Hj Hi' Hj' Hne. destruct b.
  range_cases Hi; range_cases Hj; range_cases Hi'; range_cases Hj'; done.
Qed.

Lemma cells_lookup b i j :
  in_range i → in_range j → cells b !! offset i j = Some (get b i j).
Proof. intros Hi Hj. by range_cases Hi; range_cases Hj. Qed.

Lemma cells_set b i j v :
  in_range i → in_range j → cells (set b i j v) = <[offset i j := v]> (cells b).
Proof. intros Hi Hj. destruct b. by range_cases Hi; range_cases Hj. Qed.

Lemma offset_inj i j i' j' :
  in_range i → in_range j → in_range i' → in_range j' →
  offset i j = offset i' j' → (i, j) = (i', j').
Proof. unfold in_range, offset. intros. f_equal; lia. Qed.

Lemma elem_of_cells b v :
  v ∈ cells b ↔ ∃ p, p ∈ grid ∧ get b p.1 p.2 = v.
Proof.
  split.
  - intros Hv. destruct b. unfold cells in Hv. simpl in Hv.
    repeat (apply elem_of_cons in Hv as [-> | Hv]);
      [ by exists (0, 0); split; [apply in_range_grid | ]
      | by exists (0, 1); split; [apply in_range_grid | ]
      | by exists (0, 2); split; [apply in_range_grid | ]
      | by exists (1, 0); split; [apply in_range_grid | ]
      | by exists (1, 1); split; [apply in_range_grid | ]
      | by exists (1, 2); split; [apply in_range_grid | ]
      | by exists (2, 0); split; [apply in_range_grid | ]
      | by exists (2, 1); split; [apply in_range_grid | ]
      | by exists (2, 2); split; [apply in_range_grid | ]
      | by apply elem_of_nil in Hv ].
  - intros ([i j] & Hp & <-). apply grid_in_range in Hp as [Hi Hj].
    apply list_elem_of_lookup. exists (offset i j). by apply cells_lookup.
Qed.

(** [swap_cells] read back, cell by cell. *)
Lemma get_swap_cells b p q r :
  p ∈ grid → q ∈ grid → r ∈ grid →
  get (swap_cells b p q) r.1 r.2 =
    if decide (r = q) then get b p.1 p.2
    else if decide (r = p) then get b q.1 q.2
    else get b r.1 r.2.
Proof.
  intros [Hp1 Hp2]%grid_in_range [Hq1 Hq2]%grid_in_range [Hr1 Hr2]%grid_in_range.
  destruct p as [pi pj], q as [qi qj], r as [ri rj]. unfold swap_cells. simpl in *.
  destruct (decide ((ri, rj) = (qi, qj))) as [[= -> ->] | Hq].
  { by rewrite get_set_eq. }
  rewrite get_set_ne by done.
  destruct (decide ((ri, rj) = (pi, pj))) as [[= -> ->] | Hp].
  { by rewrite get_set_eq. }
  by rewrite get_set_ne.
Qed.

Lemma swap_cells_perm b p q :
  p ∈ grid → q ∈ grid → cells (swap_cells b p q) ≡ₚ cells b.
Proof.
  intros [Hp1 Hp2]%grid_in_range [Hq1 Hq2]%grid_in_range.
  unfold swap_cells. rewrite !cells_set by done.
  apply Permutation_insert_swap; by apply cells_lookup.
Qed.

Lemma board_ext b b' :
  (∀ p, p ∈ grid → get b p.1 p.2 = get b' p.1 p.2) → b = b'.
Proof.
  intros Hall. destruct b, b'.
  pose proof (Hall (0, 0) (in_range_grid 0 0 ltac:(unfold in_range; lia) ltac:(unfold in_range; lia))).
  pose proof (Hall (0, 1) (in_range_grid 0 1 ltac:(unfold in_range; lia) ltac:(unfold in_range; lia))).
  pose proof (Hall (0, 2) (in_range_grid 0 2 ltac:(unfold in_range; lia) ltac:(unfold in_range; lia))).
  pose proof (Hall (1, 0) (in_range_grid 1 0 ltac:(unfold in_range; lia) ltac:(unfold in_range; lia))).
  pose proof (Hall (1, 1) (in_range_grid 1 1 ltac:(unfold in_range; lia) ltac:(unfold in_range; lia))).
  pose proof (Hall (1, 2) (in_range_grid 1 2 ltac:(unfold in_range; lia) ltac:(unfold in_range; lia))).
  pose proof (Hall (2, 0) (in_range_grid 2 0 ltac:(unfold in_range; lia) ltac:(unfold in_range; lia))).
  pose proof (Hall (2, 1) (in_range_grid 2 1 ltac:(unfold in_range; lia) ltac:(unfold in_range; lia))).
  pose proof (Hall (2, 2) (in_range_grid 2 2 ltac:(unfold in_range; lia) ltac:(unfold in_range; lia))).
  simpl in *. congruence.
Qed.

(* ===================================================================== *)
(** * The position dictionaries *)
(* ===================================================================== *)

Lemma special_positions_scan b :
  special_positions b = scan (λ v, bool_decide (v ∈ [1; 2; 3; 4])) b grid ∅.
Proof. reflexivity. Qed.

Lemma goal_positions_scan b :
  goal_positions b = scan (λ v, bool_decide (v ≠ 0)) b grid ∅.
Proof. reflexivity. Qed.

Section scan.
Variable test : Z → bool.

Lemma scan_lookup_Some b l m v p :
  scan test b l m !! v = Some p →
  (p ∈ l ∧ get b p.1 p.2 = v ∧ test v = true) ∨ m !! v = Some p.
Proof.
  revert m. induction l as [| a l IH]; intros m Hlook; simpl in Hlook.
  { by right. }
  apply IH in Hlook as [(Hin & Hget & Ht) | Hm].
  { left. split; [by right | done]. }
  destruct (test (get b a.1 a.2)) eqn:Ht; [| by right].
  destruct (decide (get b a.1 a.2 = v)) as [Heq | Hne].
  - rewrite Heq, lookup_insert_eq in Hm. injection Hm as <-.
    left. split; [by left |]. split; [done | by rewrite <- Heq].
  - rewrite lookup_insert_ne in Hm by done. by right.
Qed.

Lemma scan_lookup_is_Some b l m v :
  test v = true → (∃ p, p ∈ l ∧ get b p.1 p.2 = v) → is_Some (scan test b l m !! v).
Proof.
  intros Ht. revert m. induction l as [| a l IH]; intros m (p & Hin & Hget).
  { by apply elem_of_nil in Hin. }
  simpl. apply elem_of_cons in Hin as [-> | Hin].
  - rewrite Hget, Ht.
    assert (Hkeep : ∀ l' m', is_Some (m' !! v) → is_Some (scan test b l' m' !! v)).
    { clear. induction l' as [| a' l' IH']; intros m' Hs; [done |]. simpl. apply IH'.
      destruct (test (get b a'.1 a'.2)); [| done].
      destruct (decide (get b a'.1 a'.2 = v)) as [-> | Hne].
      - rewrite lookup_insert_eq. by eexists.
      - by rewrite lookup_insert_ne. }
    apply Hkeep. rewrite lookup_insert_eq. by eexists.
  - apply IH. by exists p.
Qed.

(** The entry for [v] depends only on which cells hold [v]. *)
Lemma scan_agree b b' l m m' v :
  (∀ p, p ∈ l → get b p.1 p.2 = v ↔ get b' p.1 p.2 = v) →
  m !! v = m' !! v →
  scan test b l m !! v = scan test b' l m' !! v.
Proof.
  revert m m'. induction l as [| a l IH]; intros m m' Hcells Hm; [done |].
  simpl. apply IH.
  { intros p Hp. apply Hcells. by right. }
  specialize (Hcells a (list_elem_of_here _ _)).
  destruct (decide (get b a.1 a.2 = v)) as [Heq | Hne].
  - pose proof (proj1 Hcells Heq) as Heq'. rewrite Heq, Heq'.
    destruct (test v); [by rewrite !lookup_insert_eq | done].
  - assert (Hne' : get b' a.1 a.2 ≠ v) by (intros He; by apply Hne, Hcells).
    destruct (test (get b a.1 a.2)), (test (get b' a.1 a.2));
      rewrite ?lookup_insert_ne by done; done.
Qed.
End scan.

Lemma special_positions_Some b v p :
  special_positions b !! v = Some p →
  p ∈ grid ∧ get b p.1 p.2 = v ∧ v ∈ [1; 2; 3; 4].
Proof.
  rewrite special_positions_scan. intros [(Hin & Hget & Ht) | Hm]%scan_lookup_Some.
  - split; [done |]. split; [done |]. by apply bool_decide_eq_true in Ht.
  - by rewrite lookup_empty in Hm.
Qed.

(* ===================================================================== *)
(** * The automatic swap rule *)
(* ===================================================================== *)

(** What one rule does to a cell, when the recorded cells hold [x] and [y]. *)
Lemma swap_if_adjacent_get positions x y b r v :
  (∀ p, positions !! x = Some p → p ∈ grid ∧ get b p.1 p.2 = x) →
  (∀ p, positions !! y = Some p → p ∈ grid ∧ get b p.1 p.2 = y) →
  v ≠ x → v ≠ y → r ∈ grid →
  get (swap_if_adjacent positions x y b) r.1 r.2 = v ↔ get b r.1 r.2 = v.
Proof.
  intros Hx Hy Hvx Hvy Hr. unfold swap_if_adjacent.
  destruct (positions !! x) as [px |] eqn:Hpx; [| done].
  destruct (positions !! y) as [py |] eqn:Hpy; [| done].
  destruct (_are_adjacent _ _ _ _); [| done].
  destruct (Hx px eq_refl) as [Hgx Hvalx], (Hy py eq_refl) as [Hgy Hvaly].
  rewrite get_swap_cells by done.
  repeat case_decide; subst; rewrite ?Hvalx, ?Hvaly; split; intros; congruence.
Qed.

Lemma swap_if_adjacent_perm positions x y b :
  (∀ p, positions !! x = Some p → p ∈ grid) →
  (∀ p, positions !! y = Some p → p ∈ grid) →
  cells (swap_if_adjacent positions x y b) ≡ₚ cells b.
Proof.
  intros Hx Hy. unfold swap_if_adjacent.
  destruct (positions !! x) as [px |] eqn:Hpx; [| done].
  destruct (positions !! y) as [py |] eqn:Hpy; [| done].
  destruct (_are_adjacent _ _ _ _); [| done].
  apply swap_cells_perm; auto.
Qed.

(** After the (1,3) rule the cells recorded for 2 and 4 still hold 2 and 4. *)
Lemma special_positions_after_13 b v p :
  v ≠ 1 → v ≠ 3 →
  special_positions b !! v = Some p →
  p ∈ grid ∧ get (swap_if_adjacent (special_positions b) 1 3 b) p.1 p.2 = v.
Proof.
  intros H1 H3 (Hg & Hv & _)%special_positions_Some. split; [done |].
  apply swap_if_adjacent_get; try done.
  - intros q Hq. by apply special_positions_Some in Hq as (? & ? & _).
  - intros q Hq. by apply special_positions_Some in Hq as (? & ? & _).
Qed.

Lemma special_positions_stable_13 b v :
  v ≠ 1 → v ≠ 3 →
  special_positions (swap_if_adjacent (special_positions b) 1 3 b) !! v =
  special_positions b !! v.
Proof.
  intros H1 H3. rewrite !special_positions_scan. apply scan_agree; [| done].
  intros p Hp. rewrite <- special_positions_scan.
  apply swap_if_adjacent_get; try done.
  - intros q Hq. by apply special_positions_Some in Hq as (? & ? & _).
  - intros q Hq. by apply special_positions_Some in Hq as (? & ? & _).
Qed.

Lemma apply_special_rules_board_perm b :
  cells (apply_special_rules_board b) ≡ₚ cells b.
Proof.
  unfold apply_special_rules_board. simpl.
  rewrite !swap_if_adjacent_perm; [done | | | |];
    intros p Hp; by apply special_positions_Some in Hp as (? & _).
Qed.

(** The rule only touches cells that hold 1, 2, 3 or 4. *)
Lemma apply_special_rules_board_get b r v :
  v ∉ [1; 2; 3; 4] → r ∈ grid →
  get (apply_special_rules_board b) r.1 r.2 = v ↔ get b r.1 r.2 = v.
Proof.
  intros Hv Hr. unfold apply_special_rules_board. simpl.
  apply not_elem_of_cons in Hv as [H1 Hv]. apply not_elem_of_cons in Hv as [H2 Hv].
  apply not_elem_of_cons in Hv as [H3 Hv]. apply not_elem_of_cons in Hv as [H4 _].
  rewrite swap_if_adjacent_get; try done.
  - apply swap_if_adjacent_get; try done;
      intros q Hq; by apply special_positions_Some in Hq as (? & ? & _).
  - intros q Hq. by apply special_positions_after_13.
  - intros q Hq. by apply special_positions_after_13.
Qed.

(** Collecting the positions once is enough: the (1,3) swap moves neither
    2 nor 4, so the dictionary read again after it has the same entries for
    them. *)
Lemma apply_special_rules_board_relocated b :
  apply_special_rules_board b =
    (let b1 := swap_if_adjacent (special_positions b) 1 3 b in
     swap_if_adjacent (special_positions b1) 2 4 b1).
Proof.
  unfold apply_special_rules_board. simpl. unfold swap_if_adjacent at 1 3.
  by rewrite !special_positions_stable_13.
Qed.

Lemma are_adjacent_iff i1 j1 i2 j2 :
  (_are_adjacent i1 j1 i2 j2 = true ↔ Z.abs (i1 - i2) + Z.abs (j1 - j2) = 1) ∧
  _are_adjacent i1 j1 i2 j2 = _are_adjacent i2 j2 i1 j1.
Proof.
  unfold _are_adjacent. split.
  - rewrite orb_true_iff, !andb_true_iff, !Z.eqb_eq. lia.
  - destruct (Z.eqb_spec (Z.abs (i1 - i2)) 1), (Z.eqb_spec (Z.abs (i2 - i1)) 1),
      (Z.eqb_spec (Z.abs (j1 - j2)) 1), (Z.eqb_spec (Z.abs (j2 - j1)) 1),
      (Z.eqb_spec j1 j2), (Z.eqb_spec j2 j1), (Z.eqb_spec i1 i2), (Z.eqb_spec i2 i1);
      simpl; try reflexivity; lia.
Qed.

(** The dictionary entry of a tile is the last cell holding it. *)
Lemma scan_lookup_last test b l m v :
  test v = true →
  scan test b l m !! v =
    match last (filter (λ p, get b p.1 p.2 = v) l) with
    | Some p => Some p
    | None => m !! v
    end.
Proof.
  intros Ht. revert m. induction l as [| a l IH]; intros m; [done |].
  simpl. rewrite IH. rewrite filter_cons.
  destruct (decide (get b a.1 a.2 = v)) as [Heq | Hne].
  - rewrite last_cons. rewrite Heq, Ht, lookup_insert_eq.
    by destruct (last (filter _ l)).
  - destruct (last (filter _ l)); [done |].
    destruct (test (get b a.1 a.2)); [| done]. by rewrite lookup_insert_ne.
Qed.

Lemma special_positions_cell_holding b v :
  v ∈ [1; 2; 3; 4] → special_positions b !! v = cell_holding v b.
Proof.
  intros Hv. rewrite special_positions_scan. unfold cell_holding.
  rewrite scan_lookup_last by by apply bool_decide_eq_true.
  destruct (last _); [done | by rewrite lookup_empty].
Qed.

Lemma cell_holding_grid v b p : cell_holding v b = Some p → p ∈ grid.
Proof.
  unfold cell_holding. intros Hl%last_Some_elem_of.
  by apply list_elem_of_filter in Hl as [_ Hp].
Qed.

Lemma orthogonally_adjacent_code p q :
  orthogonally_adjacent p q = _are_adjacent p.1 p.2 q.1 q.2.
Proof.
  destruct p as [pi pj], q as [qi qj]. unfold orthogonally_adjacent. simpl.
  destruct (_are_adjacent pi pj qi qj) eqn:Hadj.
  - apply bool_decide_eq_true. apply are_adjacent_iff in Hadj.
    assert (Hcases : (qi = pi - 1 ∧ qj = pj) ∨ (qi = pi + 1 ∧ qj = pj) ∨
                     (qi = pi ∧ qj = pj - 1) ∨ (qi = pi ∧ qj = pj + 1)) by lia.
    destruct Hcases as [[-> ->] | [[-> ->] | [[-> ->] | [-> ->]]]];
      repeat (first [by left | right]).
  - apply bool_decide_eq_false. intros Hin.
    assert (Hone : Z.abs (pi - qi) + Z.abs (pj - qj) = 1).
    { repeat (apply elem_of_cons in Hin as [[= -> ->] | Hin]); [lia .. |].
      by apply elem_of_nil in Hin. }
    apply are_adjacent_iff in Hone. congruence.
Qed.

Lemma get_exchanged p q b r :
  r ∈ grid →
  get (exchanged p q b) r.1 r.2 =
    if decide (r = p) then get b q.1 q.2
    else if decide (r = q) then get b p.1 p.2
    else get b r.1 r.2.
Proof.
  intros [Hr1 Hr2]%grid_in_range. destruct r as [ri rj]. simpl in *.
  range_cases Hr1; range_cases Hr2; reflexivity.
Qed.

Lemma exchanged_code p q b :
  p ∈ grid → q ∈ grid → exchanged p q b = swap_cells b p q.
Proof.
  intros Hp Hq. apply board_ext. intros r Hr.
  rewrite get_exchanged, get_swap_cells by done.
  repeat case_decide; congruence.
Qed.

(** One step of the sequenced procedure is what the code does with the
    dictionary of the board at hand. *)
Lemma swap_pair_if_adjacent_code x y b :
  x ∈ [1; 2; 3; 4] → y ∈ [1; 2; 3; 4] →
  swap_pair_if_adjacent x y b = swap_if_adjacent (special_positions b) x y b.
Proof.
  intros Hx Hy. unfold swap_pair_if_adjacent, swap_if_adjacent.
  rewrite !special_positions_cell_holding by done.
  destruct (cell_holding x b) as [p |] eqn:Hp; [| done].
  destruct (cell_holding y b) as [q |] eqn:Hq; [| done].
  rewrite orthogonally_adjacent_code.
  destruct (_are_adjacent _ _ _ _); [| done].
  apply exchanged_code; by eapply cell_holding_grid.
Qed.

Lemma valid_board_NoDup b : valid_board b → NoDup (cells b).
Proof.
  intros Hb. unfold valid_board in Hb. rewrite Hb.
  apply (bool_decide_unpack _). by vm_compute.
Qed.

(** On a board without repeated values the cell of a value is unique. *)
Lemma NoDup_cell_unique b p q :
  NoDup (cells b) → p ∈ grid → q ∈ grid → get b p.1 p.2 = get b q.1 q.2 → p = q.
Proof.
  intros Hnd [Hp1 Hp2]%grid_in_range [Hq1 Hq2]%grid_in_range Heq.
  destruct p as [pi pj], q as [qi qj]; simpl in *.
  apply offset_inj; try done.
  apply (NoDup_lookup (cells b) _ _ (get b pi pj)); [done | |].
  - by rewrite cells_lookup.
  - by rewrite cells_lookup, Heq.
Qed.

(** On a board without repeated values, a Board State in particular, the
    cell holding a value is the only one, and a step of the sequenced
    procedure acts on the cell holding [x] and the cell holding [y]. *)
Lemma cell_holding_unique v b p :
  NoDup (cells b) → p ∈ grid → get b p.1 p.2 = v → cell_holding v b = Some p.
Proof.
  intros Hnd Hp Hv. unfold cell_holding.
  destruct (last (filter (λ p, get b p.1 p.2 = v) grid)) as [p' |] eqn:Hl.
  - apply last_Some_elem_of, list_elem_of_filter in Hl as [Hv' Hp'].
    f_equal. apply (NoDup_cell_unique b); [done | done | done | congruence].
  - apply last_None in Hl.
    assert (Hin : p ∈ filter (λ p, get b p.1 p.2 = v) grid)
      by (by apply list_elem_of_filter).
    rewrite Hl in Hin. by apply elem_of_nil in Hin.
Qed.

Lemma swap_pair_if_adjacent_unique x y b p q :
  NoDup (cells b) → p ∈ grid → q ∈ grid →
  get b p.1 p.2 = x → get b q.1 q.2 = y →
  swap_pair_if_adjacent x y b =
    if orthogonally_adjacent p q then exchanged p q b else b.
Proof.
  intros Hnd Hp Hq Hx Hy. unfold swap_pair_if_adjacent.
  by rewrite (cell_holding_unique x b p), (cell_holding_unique y b q).
Qed.

Lemma exchanged_perm p q b :
  p ∈ grid → q ∈ grid → cells (exchanged p q b) ≡ₚ cells b.
Proof. intros Hp Hq. rewrite exchanged_code by done. by apply swap_cells_perm. Qed.

(** C4. For every board state, [apply_special_rules] computes exactly the
    sequenced procedure: first, if the cells holding 1 and 3 are
    orthogonally adjacent, their contents change places; then, if the cells
    holding 2 and 4 are orthogonally adjacent on the board as it stands
    after the (1,3) step, their contents change places; nothing else
    changes.  The first part is the equality with the procedure on every
    3x3 array; the second part writes the two steps out on a Board State,
    where 1 is in cell [p1] and 3 in cell [p3], and after the (1,3) step 2
    is in cell [p2] and 4 in cell [p4].  (The code collects the positions
    once, before either swap; the result is the same because the (1,3)
    swap moves neither 2 nor 4.) *)
Theorem apply_special_rules_sequencing (game : PuzzleGame) (state : State) :
  apply_special_rules game state = apply_special_rules_sequenced state ∧
  (valid_board (board state) →
   ∀ p1 p3, p1 ∈ grid → p3 ∈ grid →
     get (board state) p1.1 p1.2 = 1 → get (board state) p3.1 p3.2 = 3 →
     let b1 := if orthogonally_adjacent p1 p3
               then exchanged p1 p3 (board state) else board state in
     ∀ p2 p4, p2 ∈ grid → p4 ∈ grid →
       get b1 p2.1 p2.2 = 2 → get b1 p4.1 p4.2 = 4 →
       apply_special_rules game state =
         mkState (if orthogonally_adjacent p2 p4 then exchanged p2 p4 b1 else b1)
                 (blank_pos state)).
Proof.
  assert (Heq : apply_special_rules game state = apply_special_rules_sequenced state).
  { unfold apply_special_rules, apply_special_rules_sequenced. f_equal.
    rewrite apply_special_rules_board_relocated. simpl.
    rewrite !swap_pair_if_adjacent_code; [done | ..];
      apply (bool_decide_unpack _); by vm_compute. }
  split; [exact Heq |].
  intros Hb p1 p3 Hp1 Hp3 H1 H3 b1 p2 p4 Hp2 Hp4 H2 H4.
  rewrite Heq. unfold apply_special_rules_sequenced. simpl. f_equal.
  assert (Hnd : NoDup (cells (board state))) by by apply valid_board_NoDup.
  rewrite (swap_pair_if_adjacent_unique 1 3 (board state) p1 p3) by done.
  fold b1.
  apply swap_pair_if_adjacent_unique; try done.
  subst b1. destruct (orthogonally_adjacent p1 p3); [| done].
  by rewrite exchanged_perm.
Qed.

Lemma apply_special_rules_sequencing_witness :
  valid_board (board swapping_twice_state) ∧
  apply_special_rules PuzzleGame_init swapping_twice_state =
    mkState (mkBoard 3 1 0 4 2 5 6 7 8) (0, 2).
Proof.
  assert (Hb : valid_board (board swapping_twice_state))
    by (apply (bool_decide_unpack _); by vm_compute).
  split; [exact Hb |].
  assert (Hin : ∀ i j, in_range i → in_range j → (i, j) ∈ grid)
    by exact in_range_grid.
  refine (proj2 (apply_special_rules_sequencing PuzzleGame_init swapping_twice_state) Hb
            (0, 0) (0, 1) _ _ eq_refl eq_refl (1, 0) (1, 1) _ _ eq_refl eq_refl);
    apply Hin; unfold in_range; lia.
Defined.

(* ===================================================================== *)
(** * The transition rule keeps the data-model invariant *)
(* ===================================================================== *)

Lemma norm_index_in_range i : in_range i → norm_index i = Return i.
Proof. intros Hi. unfold norm_index. by rewrite bool_decide_eq_true_2. Qed.

Lemma getitem_in_range b i j :
  in_range i → in_range j → getitem b i j = Return (get b i j).
Proof. intros Hi Hj. unfold getitem. by rewrite !norm_index_in_range. Qed.

Lemma setitem_in_range b i j v :
  in_range i → in_range j → setitem b i j v = Return (set b i j v).
Proof. intros Hi Hj. unfold setitem. by rewrite !norm_index_in_range. Qed.

(** A valid board has one blank, so the board determines [blank_pos]. *)
Lemma valid_blank_unique b p q :
  valid_board b → p ∈ grid → q ∈ grid →
  get b p.1 p.2 = 0 → get b q.1 q.2 = 0 → p = q.
Proof.
  intros Hb [Hp1 Hp2]%grid_in_range [Hq1 Hq2]%grid_in_range Hp Hq.
  destruct p as [pi pj], q as [qi qj]; simpl in *.
  apply offset_inj; try done.
  apply (NoDup_lookup (cells b) _ _ 0); [by apply valid_board_NoDup | |].
  - by rewrite cells_lookup, Hp.
  - by rewrite cells_lookup, Hq.
Qed.

Lemma valid_state_eq s t :
  valid_state s → valid_state t → board s = board t → s = t.
Proof.
  intros (Hb & Hi & Hj & H0) (Hb' & Hi' & Hj' & H0') Heq.
  destruct s as [b [i j]], t as [b' [i' j']]; simpl in *. subst b'.
  f_equal. apply (valid_blank_unique b (i, j) (i', j')); try done;
    by apply in_range_grid.
Qed.

(** The result of one slide attempt from a valid state. *)
Lemma slide_valid game s d :
  valid_state s →
  slide game s d = Return None ∨
  ∃ n, slide game s d = Return (Some n) ∧ valid_state n.
Proof.
  intros (Hb & Hi & Hj & H0). unfold slide.
  destruct (blank_pos s) as [i j] eqn:Hbp; simpl in *.
  destruct (bool_decide (0 ≤ i + d.1 < 3)) eqn:Hni; [| by left].
  destruct (bool_decide (0 ≤ j + d.2 < 3)) eqn:Hnj; [| by left].
  apply bool_decide_eq_true in Hni, Hnj. simpl. right.
  set (ni := i + d.1) in *. set (nj := j + d.2) in *.
  rewrite getitem_in_range by done. simpl.
  rewrite setitem_in_range by done. simpl.
  rewrite setitem_in_range by done. simpl.
  eexists. split; [done |].
  assert (Hswap : set (set (board s) i j (get (board s) ni nj)) ni nj 0
                  = swap_cells (board s) (i, j) (ni, nj)).
  { unfold swap_cells. simpl. by rewrite H0. }
  unfold valid_state, apply_special_rules; simpl.
  split; [| split; [done | split; [done |]]].
  - unfold valid_board. rewrite apply_special_rules_board_perm, Hswap.
    rewrite swap_cells_perm; [done | |]; by apply in_range_grid.
  - apply (apply_special_rules_board_get _ (ni, nj) 0).
    + apply (bool_decide_unpack _). by vm_compute.
    + by apply in_range_grid.
    + simpl. by apply get_set_eq.
Qed.

Lemma neighbors_along_valid game s ms :
  valid_state s →
  ∃ ns, neighbors_along game s ms = Return ns ∧ Forall valid_state ns.
Proof.
  intros Hs. induction ms as [| d ms (ns & Hns & Hall)]; simpl.
  { by exists []. }
  destruct (slide_valid game s d Hs) as [-> | (n & -> & Hn)]; simpl; rewrite Hns; simpl.
  - by exists ns.
  - exists (n :: ns). split; [done |]. by constructor.
Qed.

Lemma get_neighbors_valid game s :
  valid_state s →
  ∃ ns, get_neighbors s game = Return ns ∧ Forall valid_state ns.
Proof. apply neighbors_along_valid. Qed.

Lemma step_valid game p q : valid_state p → step game p q → valid_state q.
Proof.
  intros Hp (ns & Hns & Hq).
  destruct (get_neighbors_valid game p Hp) as (ns' & Hns' & Hall).
  rewrite Hns in Hns'. injection Hns' as <-.
  by apply (proj1 (Forall_forall _ _) Hall).
Qed.

(** C9. From a state whose board is a permutation of 0..8 and whose cached
    [blank_pos] points at the cell holding 0, [get_neighbors] returns, and
    every state it returns satisfies the same invariant. In particular the
    automatic swap rule leaves [blank_pos] alone and changes no cell whose
    value is outside 1..4, the blank included. *)
Theorem get_neighbors_preserves_invariant (game : PuzzleGame) (s : State) :
  valid_state s →
  (∃ ns, get_neighbors s game = Return ns ∧ ∀ n, n ∈ ns → valid_state n) ∧
  (∀ st, blank_pos (apply_special_rules game st) = blank_pos st) ∧
  (∀ st r v, r ∈ grid → v ∉ [1; 2; 3; 4] →
     get (board (apply_special_rules game st)) r.1 r.2 = v ↔ get (board st) r.1 r.2 = v).
Proof.
  intros Hs. split; [| split].
  - destruct (get_neighbors_valid game s Hs) as (ns & Hns & Hall).
    exists ns. split; [done |]. by apply Forall_forall.
  - done.
  - intros st r v Hr Hv. by apply apply_special_rules_board_get.
Qed.

Lemma middle_state_valid : valid_state middle_state.
Proof.
  unfold valid_state, valid_board, in_range; simpl.
  split; [| lia]. apply (bool_decide_unpack _). by vm_compute.
Defined.

Lemma get_neighbors_preserves_invariant_witness :
  valid_state middle_state ∧
  (∃ ns, get_neighbors middle_state PuzzleGame_init = Return ns ∧
         ∀ n, n ∈ ns → valid_state n).
Proof.
  split; [exact middle_state_valid |].
  exact (proj1 (get_neighbors_preserves_invariant PuzzleGame_init middle_state
                  middle_state_valid)).
Defined.

(* ===================================================================== *)
(** * The heuristics *)
(* ===================================================================== *)

Lemma manhattan_distance_running_min s goals :
  manhattan_distance s goals = running_min (manhattan_to (board s)) Inf goals.
Proof. reflexivity. Qed.

Lemma misplaced_tiles_running_min s goals :
  misplaced_tiles s goals = running_min (misplaced_to (board s)) Inf goals.
Proof. reflexivity. Qed.

Lemma running_min_Fin f a goals :
  running_min f (Fin a) goals = Fin (foldl (λ m goal, Z.min m (f goal)) a goals).
Proof.
  unfold running_min. revert a.
  induction goals as [| g goals IH]; intros a; [done |].
  simpl. replace (hmin (Fin a) (Fin (f g))) with (Fin (Z.min a (f g))).
  - apply IH.
  - unfold hmin, hlt. destruct (Z.ltb_spec (f g) a); f_equal; lia.
Qed.

Lemma foldl_min_spec (f : Board → Z) (a : Z) (goals : list Board) :
  let r := foldl (λ m goal, Z.min m (f goal)) a goals in
  (r = a ∨ r ∈ (f <$> goals)) ∧ r ≤ a ∧ ∀ x, x ∈ (f <$> goals) → r ≤ x.
Proof.
  revert a. induction goals as [| g goals IH]; intros a; simpl.
  { split; [by left |]. split; [lia |]. intros x Hx. by apply elem_of_nil in Hx. }
  destruct (IH (Z.min a (f g))) as (Hin & Hle & Hall). split; [| split].
  - destruct Hin as [Heq | Hin].
    + rewrite Heq. destruct (Z.min_spec a (f g)) as [[_ ->] | [_ ->]]; [by left |].
      right. by left.
    + right. by right.
  - lia.
  - intros x [-> | Hx]%elem_of_cons; [lia | by apply Hall].
Qed.

(** On a non-empty goal list the result is the least per-goal estimate. *)
Lemma running_min_is_minimum f goals :
  goals ≠ [] → ∃ d, running_min f Inf goals = Fin d ∧ is_minimum d (f <$> goals).
Proof.
  destruct goals as [| g goals]; [done |]. intros _.
  change (running_min f Inf (g :: goals)) with (running_min f (Fin (f g)) goals).
  rewrite running_min_Fin.
  eexists. split; [done |].
  destruct (foldl_min_spec f (f g) goals) as (Hin & Hle & Hall). split.
  - destruct Hin as [-> | Hin]; [by left | by right].
  - intros x [-> | Hx]%elem_of_cons; [done | by apply Hall].
Qed.

(** Per goal: a misplaced tile is at distance at least one from its cell. *)
Lemma misplaced_to_le_manhattan_to b goal :
  (∀ v, v ∈ cells b → v ≠ 0 → v ∈ cells goal) →
  misplaced_to b goal ≤ manhattan_to b goal.
Proof.
  intros Hocc. unfold misplaced_to, manhattan_to.
  assert (Hgen : ∀ l m d, (∀ p, p ∈ l → p ∈ grid) → m ≤ d →
    foldl (λ misplaced p,
             if bool_decide (get b p.1 p.2 ≠ 0) && bool_decide (get b p.1 p.2 ≠ get goal p.1 p.2)
             then misplaced + 1 else misplaced) m l
    ≤ foldl (λ distance p,
               if bool_decide (get b p.1 p.2 ≠ 0) then
                 match goal_positions goal !! get b p.1 p.2 with
                 | Some g => distance + (Z.abs (p.1 - g.1) + Z.abs (p.2 - g.2))
                 | None => distance
                 end
               else distance) d l).
  { induction l as [| p l IH]; intros m d Hl Hmd; [done |]. simpl.
    apply IH; [intros q Hq; apply Hl; by right |].
    assert (Hp : p ∈ grid) by (apply Hl; by left).
    destruct (bool_decide (get b p.1 p.2 ≠ 0)) eqn:Hnz; simpl; [| done].
    apply bool_decide_eq_true in Hnz.
    assert (Hv : get b p.1 p.2 ∈ cells goal).
    { apply Hocc; [| done]. apply elem_of_cells. by exists p. }
    apply elem_of_cells in Hv.
    destruct (scan_lookup_is_Some (λ v, bool_decide (v ≠ 0)) goal grid ∅
                (get b p.1 p.2)) as [g Hg];
      [by apply bool_decide_eq_true | done |].
    rewrite goal_positions_scan, Hg.
    apply scan_lookup_Some in Hg as [(Hgin & Hgv & _) | Hg];
      [| by rewrite lookup_empty in Hg].
    destruct (bool_decide (get b p.1 p.2 ≠ get goal p.1 p.2)) eqn:Hmis; [| lia].
    apply bool_decide_eq_true in Hmis.
    assert (Hne : p ≠ g) by (intros ->; by apply Hmis).
    destruct p as [pi pj], g as [gi gj]; simpl in *.
    assert (pi ≠ gi ∨ pj ≠ gj) by (destruct (decide (pi = gi)); [right | left]; congruence).
    lia. }
  by apply Hgen.
Qed.

Lemma valid_board_occurs b goal v :
  valid_board b → valid_board goal → v ∈ cells b → v ∈ cells goal.
Proof. unfold valid_board. intros -> ->. done. Qed.

(** C6. For every state and every non-empty goal set (boards being
    permutations of 0..8), both heuristics return the least of their
    per-goal estimates, and the Manhattan value is at least the
    misplaced-tiles value. *)
Theorem manhattan_ge_misplaced (s : State) (goals : list Board) :
  valid_board (board s) → Forall valid_board goals → goals ≠ [] →
  ∃ d m,
    manhattan_distance s goals = Fin d ∧
    misplaced_tiles s goals = Fin m ∧
    is_minimum d (manhattan_to (board s) <$> goals) ∧
    is_minimum m (misplaced_to (board s) <$> goals) ∧
    m ≤ d.
Proof.
  intros Hs Hgoals Hne.
  destruct (running_min_is_minimum (manhattan_to (board s)) goals Hne) as (d & Hd & Hdmin).
  destruct (running_min_is_minimum (misplaced_to (board s)) goals Hne) as (m & Hm & Hmmin).
  exists d, m. do 4 (split; [done |]).
  destruct Hdmin as [Hdin _], Hmmin as [_ Hmall].
  apply list_elem_of_fmap in Hdin as (g & -> & Hg).
  transitivity (misplaced_to (board s) g).
  - apply Hmall. apply list_elem_of_fmap. by exists g.
  - apply misplaced_to_le_manhattan_to. intros v Hv _.
    apply (valid_board_occurs (board s)); [done | | done].
    by apply (proj1 (Forall_forall _ _) Hgoals).
Qed.

Lemma goal_states_valid : Forall valid_board (goal_states PuzzleGame_init).
Proof.
  repeat constructor; apply (bool_decide_unpack _); by vm_compute.
Defined.

Lemma manhattan_ge_misplaced_witness :
  ∃ d m,
    manhattan_distance middle_state (goal_states PuzzleGame_init) = Fin d ∧
    misplaced_tiles middle_state (goal_states PuzzleGame_init) = Fin m ∧
    is_minimum d (manhattan_to (board middle_state) <$> goal_states PuzzleGame_init) ∧
    is_minimum m (misplaced_to (board middle_state) <$> goal_states PuzzleGame_init) ∧
    m ≤ d.
Proof.
  apply (manhattan_ge_misplaced middle_state (goal_states PuzzleGame_init)).
  - exact (proj1 middle_state_valid).
  - exact goal_states_valid.
  - discriminate.
Defined.

(** C7, as the code has it. With an empty goal set neither heuristic
    raises: the loop over the goals does not run and the initial value
    [float('inf')] is returned. *)
Theorem heuristics_empty_goal_set (s : State) :
  manhattan_distance s [] = Inf ∧ misplaced_tiles s [] = Inf.
Proof. split; reflexivity. Qed.

(** C7 fails as stated. The heuristics have no raising path; on the
    default start state and an empty goal set each one returns, and what it
    returns is the infinite estimate. *)
Lemma heuristics_empty_goal_set_returns_inf :
  manhattan_distance middle_state [] = Inf ∧ misplaced_tiles middle_state [] = Inf.
Proof. split; by vm_compute. Qed.

(* ===================================================================== *)
(** * A*: a start state that is already a goal *)
(* ===================================================================== *)

Lemma is_goal_elem s goals : is_goal s goals = true ↔ board s ∈ goals.
Proof.
  unfold is_goal. rewrite existsb_exists. split.
  - intros (g & Hg%list_elem_of_In & Heq%bool_decide_eq_true). by subst.
  - intros Hg. exists (board s). split; [by apply list_elem_of_In |].
    by apply bool_decide_eq_true.
Qed.

Lemma search_goal_start fuel self s :
  is_goal s (goal_states (game self)) = true →
  search (S (S fuel)) self s =
    (mkAStar (game self) (heuristic_func self) (nodes_expanded self)
             (Z.max (max_frontier_size self) 1) (search_tree self),
     Return (Some [s])).
Proof.
  intros Hgoal. unfold search. simpl. rewrite Hgoal.
  unfold _reconstruct_path. simpl. by rewrite lookup_singleton_eq.
Qed.

(** C8. When the start grid equals one of the four goal grids, [search] on
    a freshly constructed engine returns the one-element path holding that
    state, and [nodes_expanded] is zero afterwards. Two loop iterations of
    fuel are enough: one for the pop, one for the path reconstruction. *)
Theorem search_goal_start_fresh (h : State → list Board → hval) (s : State) (fuel : nat) :
  board s ∈ goal_states PuzzleGame_init → (2 ≤ fuel)%nat →
  ∃ e, search fuel (AStar_init PuzzleGame_init h) s = (e, Return (Some [s])) ∧
       nodes_expanded e = 0.
Proof.
  intros Hgoal Hfuel. destruct fuel as [| [| fuel]]; [lia | lia |].
  rewrite search_goal_start by by apply is_goal_elem.
  eexists. split; [done |]. done.
Qed.

Lemma search_goal_start_fresh_witness :
  ∃ e, search 2 (AStar_init PuzzleGame_init manhattan_distance)
         (mkState (mkBoard 8 7 6 5 4 3 2 1 0) (2, 2))
       = (e, Return (Some [mkState (mkBoard 8 7 6 5 4 3 2 1 0) (2, 2)])) ∧
       nodes_expanded e = 0.
Proof.
  apply (search_goal_start_fresh manhattan_distance
           (mkState (mkBoard 8 7 6 5 4 3 2 1 0) (2, 2)) 2).
  - apply (bool_decide_unpack _). by vm_compute.
  - lia.
Defined.

(* ===================================================================== *)
(** * Chains *)
(* ===================================================================== *)

Section chain.
Context {A : Type} (R : A → A → Prop).

Lemma chain_snoc l x :
  chain R l → (∀ z, last l = Some z → R z x) → chain R (l ++ [x]).
Proof.
  induction l as [| a l IH]; intros Hc Hlast; simpl; [done |].
  destruct Hc as [Hhead Hc]. destruct l as [| b l].
  - simpl. split; [| done]. by apply Hlast.
  - split; [done |]. apply IH; [done |]. intros z Hz. by apply Hlast.
Qed.

Lemma chain_reverse l : chain (flip R) l → chain R (reverse l).
Proof.
  induction l as [| a l IH]; intros Hc; [done |].
  rewrite reverse_cons. destruct Hc as [Hhead Hc].
  apply chain_snoc; [by apply IH |].
  intros z Hz. rewrite last_reverse in Hz. destruct l as [| b l]; [done |].
  simpl in Hz. injection Hz as <-. exact Hhead.
Qed.

Lemma chain_lookup l i x y :
  chain R l → l !! i = Some x → l !! S i = Some y → R x y.
Proof.
  revert i. induction l as [| a l IH]; intros i Hc Hx Hy; [done |].
  destruct Hc as [Hhead Hc]. destruct i as [| i].
  - simpl in Hx, Hy. injection Hx as ->. destruct l as [| b l]; [done |].
    simpl in Hy. by injection Hy as ->.
  - by apply (IH i).
Qed.
End chain.

(* ===================================================================== *)
(** * A*: the bookkeeping invariant *)
(* ===================================================================== *)

(** The frontier model meets the contract of [heapq]: the keys
    [(f, counter)] are totally ordered, [heappush] keeps the queue ordered,
    and so [heappop] hands out an entry that no pending entry precedes. *)
Ltac key_order :=
  simpl in *; repeat case_bool_decide; simplify_eq; simpl in *;
  repeat match goal with
         | H : context [(?u <? ?v)] |- _ => destruct (Z.ltb_spec u v); simpl in H
         | |- context [(?u <? ?v)] => destruct (Z.ltb_spec u v); simpl
         end;
  try done; try lia;
  try (exfalso; match goal with H : Fin ?u ≠ Fin ?v |- _ => apply H; f_equal; lia end).

Lemma entry_lt_trans_neg x y z :
  entry_lt y x = false → entry_lt z y = false → entry_lt z x = false.
Proof.
  destruct x as [[fx cx] sx], y as [[fy cy] sy], z as [[fz cz] sz].
  unfold entry_lt, hlt. intros Hyx Hzy.
  destruct fx as [a |], fy as [b |], fz as [c |]; key_order.
Qed.

Lemma heappush_sorted heap x :
  StronglySorted (λ a b, entry_lt b a = false) heap →
  StronglySorted (λ a b, entry_lt b a = false) (heappush heap x).
Proof.
  induction 1 as [| y heap Hsorted IH Hall]; simpl.
  { repeat constructor. }
  destruct (entry_lt x y) eqn:Hxy.
  - constructor; [by constructor |]. constructor.
    + destruct x as [[fx cx] sx], y as [[fy cy] sy]. unfold entry_lt, hlt in *.
      destruct fx as [a |], fy as [b |]; key_order.
    + eapply Forall_impl; [exact Hall |]. intros z Hz. simpl in Hz.
      apply (entry_lt_trans_neg _ y); [| done].
      destruct x as [[fx cx] sx], y as [[fy cy] sy]. unfold entry_lt, hlt in *.
      destruct fx as [a |], fy as [b |]; key_order.
  - constructor; [done |]. apply Forall_forall. intros z Hz.
    assert (Hcases : z = x ∨ z ∈ heap).
    { clear -Hz. induction heap as [| w heap IHh]; simpl in Hz.
      - apply list_elem_of_singleton in Hz. by left.
      - destruct (entry_lt x w).
        + apply elem_of_cons in Hz as [-> | Hz]; [by left | by right].
        + apply elem_of_cons in Hz as [-> | Hz]; [right; by left |].
          destruct (IHh Hz) as [-> | Hin]; [by left | right; by right]. }
    destruct Hcases as [-> | Hin]; [done |].
    by apply (proj1 (Forall_forall _ _) Hall).
Qed.

Lemma heappop_least heap x heap' :
  StronglySorted (λ a b, entry_lt b a = false) heap →
  heappop heap = Some (x, heap') →
  StronglySorted (λ a b, entry_lt b a = false) heap' ∧
  ∀ y, y ∈ heap' → entry_lt y x = false.
Proof.
  intros Hsorted Hpop. destruct heap as [| y heap]; [done |].
  injection Hpop as -> ->. apply StronglySorted_inv in Hsorted as [Hs Hall].
  split; [done |]. by apply Forall_forall.
Qed.

Lemma elem_of_heappush heap x e : e ∈ heappush heap x ↔ e = x ∨ e ∈ heap.
Proof.
  induction heap as [| y heap IH]; simpl.
  { rewrite list_elem_of_singleton. split; [by left | by intros [? | ?%elem_of_nil]]. }
  destruct (entry_lt x y); rewrite !elem_of_cons; [done |].
  rewrite IH. tauto.
Qed.

Lemma length_heappush heap x : length (heappush heap x) = S (length heap).
Proof.
  induction heap as [| y heap IH]; simpl; [done |].
  destruct (entry_lt x y); simpl; by rewrite ?IH.
Qed.

Lemma relax_cases current current_g self l neighbor :
  relax current current_g (self, l) neighbor = (self, l) ∨
  (relax current current_g (self, l) neighbor = relax_record current current_g self l neighbor ∧
   (board neighbor ∉ closed_set l) ∧
   ∀ g, g_values l !! board neighbor = Some g → current_g + 1 < g).
Proof.
  unfold relax. destruct (bool_decide _) eqn:Hclosed; [by left |].
  apply bool_decide_eq_false in Hclosed.
  destruct (g_values l !! board neighbor) as [g |] eqn:Hg.
  - destruct (Z.geb_spec (current_g + 1) g); [by left |].
    right. split; [done |]. split; [done |]. intros g' [= <-]. lia.
  - right. split; [done |]. split; [done |]. by intros.
Qed.

#[global] Arguments relax : simpl never.
#[global] Arguments get_neighbors : simpl never.
#[global] Arguments _reconstruct_path : simpl never.

Lemma relax_game current current_g self l neighbor :
  game (relax current current_g (self, l) neighbor).1 = game self ∧
  heuristic_func (relax current current_g (self, l) neighbor).1 = heuristic_func self.
Proof.
  destruct (relax_cases current current_g self l neighbor) as [-> | [-> _]]; done.
Qed.

Lemma foldl_relax_game current current_g ns self l :
  game (foldl (relax current current_g) (self, l) ns).1 = game self ∧
  heuristic_func (foldl (relax current current_g) (self, l) ns).1 = heuristic_func self.
Proof.
  revert self l. induction ns as [| n ns IH]; intros self l; [done |].
  simpl. destruct (relax_game current current_g self l n) as [Hg Hh].
  destruct (relax current current_g (self, l) n) as [self' l'].
  destruct (IH self' l') as [-> ->]. done.
Qed.

(** [search] never assigns [self.game] or [self.heuristic_func]. *)
Lemma search_loop_game fuel self l :
  game (search_loop fuel self l).1 = game self ∧
  heuristic_func (search_loop fuel self l).1 = heuristic_func self.
Proof.
  revert self l. induction fuel as [| fuel IH]; intros self l; [done |].
  simpl. destruct (open_set l) as [| [[f c] current] rest]; [done |]. simpl.
  destruct (is_goal _ _); [done |].
  destruct (bool_decide _).
  { by destruct (IH (mkAStar (game self) (heuristic_func self) (nodes_expanded self)
       (Z.max (max_frontier_size self) (Z.of_nat (S (length rest)))) (search_tree self))
       (mkLocals rest (closed_set l) (g_values l) (parent l) (counter l))) as [-> ->]. }
  destruct (g_values l !! board current) as [current_g |]; [| done].
  destruct (get_neighbors current (game self)) as [ns | |]; [| done | done].
  match goal with
  | |- context [foldl ?f (?a2, ?l2) ns] =>
      destruct (foldl_relax_game current current_g ns a2 l2) as [Hg Hh];
      destruct (foldl f (a2, l2) ns) as [a3 l3]
  end.
  by destruct (IH a3 l3) as [-> ->].
Qed.

Section invariant.
Variable gm : PuzzleGame.
Variable s0 : State.
Hypothesis s0_valid : valid_state s0.

Lemma search_inv_initial h :
  search_inv gm s0 (mkLocals (heappush [] (h, 0, s0)) ∅ {[board s0 := 0]}
                       {[board s0 := None]} 0).
Proof.
  split; simpl.
  - by rewrite lookup_singleton_eq.
  - intros k Hk. apply lookup_singleton_Some in Hk. by destruct Hk.
  - intros k p Hk. apply lookup_singleton_Some in Hk. by destruct Hk.
  - intros e He. apply list_elem_of_singleton in He. by subst.
  - by rewrite lookup_singleton_eq.
  - intros k g Hk. apply lookup_singleton_Some in Hk. lia.
Qed.

Lemma relax_inv current current_g self l neighbor :
  search_inv gm s0 l → valid_state current → 0 ≤ current_g →
  step gm current neighbor →
  search_inv gm s0 (relax current current_g (self, l) neighbor).2.
Proof.
  intros Hinv Hcur Hg Hstep.
  destruct (relax_cases current current_g self l neighbor) as [-> | (-> & _ & Hbetter)];
    [done |].
  assert (Hne : board neighbor ≠ board s0).
  { intros Heq. specialize (Hbetter 0). rewrite Heq in Hbetter.
    specialize (Hbetter (inv_g_root _ _ _ Hinv)). lia. }
  destruct Hinv as [Hroot Hronly Hpar Hopen Hgroot Hgnn]. split; simpl.
  - by rewrite lookup_insert_ne.
  - intros k Hk. destruct (decide (board neighbor = k)) as [<- | Hk'].
    + by rewrite lookup_insert_eq in Hk.
    + rewrite lookup_insert_ne in Hk by done. by apply Hronly.
  - intros k p Hk. destruct (decide (board neighbor = k)) as [<- | Hk'].
    + rewrite lookup_insert_eq in Hk. injection Hk as <-.
      split; [done |]. by exists neighbor.
    + rewrite lookup_insert_ne in Hk by done. by apply Hpar.
  - intros e [-> | He]%elem_of_heappush; [| by apply Hopen].
    simpl. by apply (step_valid gm current).
  - by rewrite lookup_insert_ne.
  - intros k g Hk. destruct (decide (board neighbor = k)) as [<- | Hk'].
    + rewrite lookup_insert_eq in Hk. injection Hk as <-. lia.
    + rewrite lookup_insert_ne in Hk by done. by apply (Hgnn k).
Qed.

Lemma foldl_relax_inv current current_g ns self l :
  search_inv gm s0 l → valid_state current → 0 ≤ current_g →
  (∀ n, n ∈ ns → step gm current n) →
  search_inv gm s0 (foldl (relax current current_g) (self, l) ns).2.
Proof.
  intros Hinv Hcur Hg. revert self l Hinv.
  induction ns as [| n ns IH]; intros self l Hinv Hns; [done |].
  simpl. destruct (relax current current_g (self, l) n) as [self' l'] eqn:Hrelax.
  apply IH.
  - change l' with (self', l').2. rewrite <- Hrelax.
    apply relax_inv; try done. apply Hns. by left.
  - intros m Hm. apply Hns. by right.
Qed.

(** Following the parent links from a valid state yields a path of the
    move model that starts at the initial state. *)
Lemma reconstruct_loop_path l fuel current acc path :
  search_inv gm s0 l →
  valid_state current → last acc = Some current → chain (flip (step gm)) acc →
  reconstruct_loop fuel (parent l) current acc = Return path →
  head path = Some s0 ∧ last path = head acc ∧ chain (step gm) path.
Proof.
  intros Hinv. revert current acc.
  induction fuel as [| fuel IH]; intros current acc Hcur Hlast Hchain Hrun; [done |].
  simpl in Hrun. destruct (parent l !! board current) as [[p |] |] eqn:Hpar; [| | done].
  - destruct (inv_parent _ _ _ Hinv _ _ Hpar) as (Hp & n & Hstep & Hboard).
    assert (n = current) as ->.
    { apply valid_state_eq; [by apply (step_valid gm p) | done | done]. }
    apply IH in Hrun as (Hhead & Hl & Hc); try done.
    + split; [done |]. split; [| done]. rewrite Hl.
      destruct acc; [done | done].
    + by rewrite last_snoc.
    + apply chain_snoc; [done |]. intros z Hz. rewrite Hlast in Hz.
      by injection Hz as <-.
  - injection Hrun as <-.
    assert (current = s0) as ->.
    { apply valid_state_eq; [done | done |]. by apply (inv_root_only _ _ _ Hinv). }
    split; [| split].
    + rewrite head_reverse. done.
    + by rewrite last_reverse.
    + by apply chain_reverse.
Qed.

Lemma search_loop_path fuel self l e path :
  game self = gm → search_inv gm s0 l →
  search_loop fuel self l = (e, Return (Some path)) →
  head path = Some s0 ∧
  (∃ goal, last path = Some goal ∧ is_goal goal (goal_states gm) = true) ∧
  chain (step gm) path.
Proof.
  revert self l. induction fuel as [| fuel IH]; intros self l Hgame Hinv Hrun; [done |].
  simpl in Hrun. destruct (open_set l) as [| [[f c] current] rest] eqn:Hopen; [done |].
  simpl in Hrun.
  assert (Hcur : valid_state current).
  { apply (inv_open _ _ _ Hinv (f, c, current)). rewrite Hopen. by left. }
  assert (Hrest : search_inv gm s0 (mkLocals rest (closed_set l) (g_values l) (parent l) (counter l))).
  { destruct Hinv. split; simpl; try done.
    intros x Hx. apply inv_open0. rewrite Hopen. by right. }
  rewrite Hgame in Hrun.
  destruct (is_goal current (goal_states gm)) eqn:Hgoal.
  - injection Hrun as _ Hrun.
    destruct (_reconstruct_path fuel (parent l) current) as [p | |] eqn:Hrec; [| done | done].
    simpl in Hrun. injection Hrun as ->.
    apply (reconstruct_loop_path l) in Hrec as (Hhead & Hlast & Hchain); try done.
    split; [done |]. split; [| done]. by exists current.
  - destruct (bool_decide (board current ∈ closed_set l)).
    { by apply IH in Hrun. }
    destruct (g_values l !! board current) as [current_g |] eqn:Hg; [| done].
    destruct (get_neighbors current gm) as [ns | |] eqn:Hns; [| done | done].
    match type of Hrun with
    | context [foldl ?f ?a ns] => destruct (foldl f a ns) as [self3 l3] eqn:Hfold
    end.
    apply IH in Hrun; [done | |].
    + change self3 with (self3, l3).1. rewrite <- Hfold.
      by rewrite (proj1 (foldl_relax_game _ _ _ _ _)).
    + change l3 with (self3, l3).2. rewrite <- Hfold.
      apply foldl_relax_inv; try done.
      * destruct Hrest. split; simpl; done.
      * by apply (inv_g_nonneg _ _ _ Hinv (board current)).
      * intros n Hn. by exists ns.
Qed.
End invariant.

(** C2. For every valid initial state, a path returned by [search] starts
    with the initial state, ends in a state whose grid is one of the goal
    grids, and every consecutive pair [(p, q)] has [q] among
    [p.get_neighbors(game)], the slide followed by the automatic swaps. *)
Theorem search_path_sound (fuel : nat) (self : AStar) (s0 : State) (path : list State) :
  valid_state s0 →
  (search fuel self s0).2 = Return (Some path) →
  head path = Some s0 ∧
  (∃ goal, last path = Some goal ∧ board goal ∈ goal_states (game self)) ∧
  ∀ i p q, path !! i = Some p → path !! S i = Some q → step (game self) p q.
Proof.
  intros Hs0 Hrun. unfold search in Hrun. simpl in Hrun.
  match type of Hrun with
  | (search_loop _ _ ?l).2 = _ => destruct (search_loop fuel self l) as [e r] eqn:Hloop
  end.
  simpl in Hrun. subst r.
  assert (Hpath := search_loop_path (game self) s0 Hs0 fuel self _ e path
                     eq_refl (search_inv_initial (game self) s0 Hs0 _) Hloop).
  destruct Hpath as (Hhead & (goal & Hlast & Hgoal) & Hchain).
  split; [done |]. split.
  - exists goal. split; [done |]. by apply is_goal_elem.
  - intros i p q Hp Hq. by apply (chain_lookup _ path i).
Qed.

Lemma search_path_sound_witness :
  valid_state middle_state ∧
  ∃ path,
    (search 10 (AStar_init PuzzleGame_init manhattan_distance) middle_state).2
      = Return (Some path) ∧
    head path = Some middle_state ∧
    (∃ goal, last path = Some goal ∧ board goal ∈ goal_states PuzzleGame_init) ∧
    ∀ i p q, path !! i = Some p → path !! S i = Some q → step PuzzleGame_init p q.
Proof.
  split; [exact middle_state_valid |].
  eexists. split; [vm_compute; reflexivity |].
  apply (search_path_sound 10 (AStar_init PuzzleGame_init manhattan_distance)
                           middle_state _ middle_state_valid).
  vm_compute; reflexivity.
Defined.

(* ===================================================================== *)
(** * A*: the instrumentation fields *)
(* ===================================================================== *)

Lemma relax_rebase base current current_g a l neighbor :
  relax current current_g (rebase base a, l) neighbor =
  (rebase base (relax current current_g (a, l) neighbor).1,
   (relax current current_g (a, l) neighbor).2).
Proof.
  unfold relax. destruct (bool_decide _); [done |].
  destruct (match g_values l !! board neighbor with
            | Some g => current_g + 1 >=? g
            | None => false
            end); [done |].
  unfold rebase; simpl. by rewrite app_assoc.
Qed.

Lemma foldl_relax_rebase base current current_g ns a l :
  foldl (relax current current_g) (rebase base a, l) ns =
  (rebase base (foldl (relax current current_g) (a, l) ns).1,
   (foldl (relax current current_g) (a, l) ns).2).
Proof.
  revert a l. induction ns as [| n ns IH]; intros a l; [done |].
  simpl. rewrite relax_rebase.
  destruct (relax current current_g (a, l) n) as [a' l']. simpl. apply IH.
Qed.

(** The loop never reads the three fields: a run on top of [base] is the
    same run with the counters shifted. *)
Lemma search_loop_rebase base fuel a l :
  search_loop fuel (rebase base a) l = rebase_result base (search_loop fuel a l).
Proof.
  revert a l. induction fuel as [| fuel IH]; intros a l; [done |].
  simpl. destruct (open_set l) as [| [[f c] current] rest]; [done |]. simpl.
  assert (Hpeak : ∀ n, mkAStar (game a) (heuristic_func a)
             (nodes_expanded base + nodes_expanded a)
             (Z.max (Z.max (max_frontier_size base) (max_frontier_size a)) n)
             (search_tree base ++ search_tree a)
           = rebase base (mkAStar (game a) (heuristic_func a) (nodes_expanded a)
                                  (Z.max (max_frontier_size a) n) (search_tree a))).
  { intros n. unfold rebase; simpl. by rewrite Z.max_assoc. }
  destruct (is_goal current (goal_states (game a))).
  { unfold rebase_result; simpl. by rewrite Hpeak. }
  destruct (bool_decide (board current ∈ closed_set l)).
  { rewrite Hpeak. apply IH. }
  assert (Hexp : ∀ n, mkAStar (game a) (heuristic_func a)
             (nodes_expanded base + nodes_expanded a + 1)
             (Z.max (Z.max (max_frontier_size base) (max_frontier_size a)) n)
             (search_tree base ++ search_tree a)
           = rebase base (mkAStar (game a) (heuristic_func a) (nodes_expanded a + 1)
                                  (Z.max (max_frontier_size a) n) (search_tree a))).
  { intros n. unfold rebase; simpl. by rewrite Z.max_assoc, Z.add_assoc. }
  rewrite Hexp.
  destruct (g_values l !! board current) as [current_g |]; [| done].
  destruct (get_neighbors current (game a)) as [ns | |]; [| done | done].
  rewrite foldl_relax_rebase.
  match goal with
  | |- context [foldl ?f ?x ns] => destruct (foldl f x ns) as [a3 l3]
  end.
  simpl. apply IH.
Qed.

Lemma search_rebase base fuel a s :
  search fuel (rebase base a) s = rebase_result base (search fuel a s).
Proof. unfold search. simpl. apply search_loop_rebase. Qed.

Lemma search_game fuel self s :
  game (search fuel self s).1 = game self ∧
  heuristic_func (search fuel self s).1 = heuristic_func self.
Proof. unfold search. simpl. apply search_loop_game. Qed.

Lemma rebase_fresh self :
  0 ≤ max_frontier_size self →
  rebase self (AStar_init (game self) (heuristic_func self)) = self.
Proof.
  intros Hm. destruct self as [g h n m t]. unfold rebase, AStar_init; simpl in *.
  f_equal; [lia | lia | by rewrite app_nil_r].
Qed.

(** C10. [search] never resets [nodes_expanded], [max_frontier_size] or
    [search_tree]: a call on an engine that already carries values (any
    engine built by [__init__] and earlier calls has a non-negative peak)
    ends with the values of that run alone, as a fresh engine would report
    them, accumulated on top of the previous ones: the expansion count is
    added, the peak is the larger of the two, and the diagnostic log is
    appended. The returned path is the one of the run alone. *)
Theorem search_accumulates (fuel : nat) (self : AStar) (s : State) :
  0 ≤ max_frontier_size self →
  ∃ alone r,
    search fuel (AStar_init (game self) (heuristic_func self)) s = (alone, r) ∧
    search fuel self s =
      (mkAStar (game self) (heuristic_func self)
               (nodes_expanded self + nodes_expanded alone)
               (Z.max (max_frontier_size self) (max_frontier_size alone))
               (search_tree self ++ search_tree alone),
       r).
Proof.
  intros Hm.
  destruct (search fuel (AStar_init (game self) (heuristic_func self)) s)
    as [alone r] eqn:Halone.
  exists alone, r. split; [done |].
  pose proof (search_game fuel (AStar_init (game self) (heuristic_func self)) s) as Hsame.
  rewrite Halone in Hsame. destruct Hsame as [Hg Hh]. simpl in Hg, Hh.
  pose proof (search_rebase self fuel (AStar_init (game self) (heuristic_func self)) s)
    as Hframe.
  rewrite (rebase_fresh self Hm), Halone in Hframe. rewrite Hframe.
  unfold rebase_result, rebase; simpl. by rewrite Hg, Hh.
Qed.

Lemma search_accumulates_witness :
  let used := mkAStar PuzzleGame_init manhattan_distance 25 29 [] in
  0 ≤ max_frontier_size used ∧
  ∃ alone r,
    search 10 (AStar_init (game used) (heuristic_func used)) middle_state = (alone, r) ∧
    search 10 used middle_state =
      (mkAStar (game used) (heuristic_func used)
               (nodes_expanded used + nodes_expanded alone)
               (Z.max (max_frontier_size used) (max_frontier_size alone))
               (search_tree used ++ search_tree alone),
       r).
Proof.
  intros used. split; [simpl; lia |].
  apply (search_accumulates 10 used middle_state). simpl; lia.
Defined.

(* ===================================================================== *)
(** * A*: determinism *)
(* ===================================================================== *)

Lemma relax_same_setup current current_g a b l neighbor :
  same_setup a b →
  same_setup (relax current current_g (a, l) neighbor).1
             (relax current current_g (b, l) neighbor).1 ∧
  (relax current current_g (a, l) neighbor).2 = (relax current current_g (b, l) neighbor).2.
Proof.
  intros (Hg & Hh & Hn & Hm). unfold relax.
  destruct (bool_decide _); [done |].
  destruct (match g_values l !! board neighbor with
            | Some g => current_g + 1 >=? g
            | None => false
            end); [done |].
  simpl. split; [done |]. by rewrite Hg, Hh.
Qed.

Lemma foldl_relax_same_setup current current_g ns a b l :
  same_setup a b →
  same_setup (foldl (relax current current_g) (a, l) ns).1
             (foldl (relax current current_g) (b, l) ns).1 ∧
  (foldl (relax current current_g) (a, l) ns).2 = (foldl (relax current current_g) (b, l) ns).2.
Proof.
  revert a b l. induction ns as [| n ns IH]; intros a b l Hab; [done |].
  simpl. destruct (relax_same_setup current current_g a b l n Hab) as [Hab' Hl].
  destruct (relax current current_g (a, l) n) as [a' la].
  destruct (relax current current_g (b, l) n) as [b' lb].
  simpl in *. subst lb. by apply IH.
Qed.

Lemma search_loop_same_setup fuel a b l :
  same_setup a b →
  same_setup (search_loop fuel a l).1 (search_loop fuel b l).1 ∧
  (search_loop fuel a l).2 = (search_loop fuel b l).2.
Proof.
  revert a b l. induction fuel as [| fuel IH]; intros a b l Hab; [done |].
  simpl. destruct (open_set l) as [| [[f c] current] rest]; [done |]. simpl.
  destruct Hab as (Hg & Hh & Hn & Hm). rewrite <- Hg.
  destruct (is_goal _ _).
  { simpl. split; [| done]. repeat split; simpl; congruence. }
  destruct (bool_decide _).
  { apply IH. repeat split; simpl; congruence. }
  destruct (g_values l !! board current) as [current_g |].
  2: { simpl. split; [| done]. repeat split; simpl; congruence. }
  destruct (get_neighbors current (game a)) as [ns | |].
  2, 3: simpl; split; [| done]; repeat split; simpl; congruence.
  match goal with
  | |- context [foldl ?f (?a2, ?l2) ns] =>
      match goal with
      | |- context [foldl f (?b2, l2) ns] =>
          lazymatch b2 with
          | a2 => fail
          | _ => destruct (foldl_relax_same_setup current current_g ns a2 b2 l2)
                   as [Hab' Hl]; [repeat split; simpl; congruence |];
                 destruct (foldl f (a2, l2) ns) as [a3 la];
                 destruct (foldl f (b2, l2) ns) as [b3 lb]
          end
      end
  end.
  simpl in *. subst lb. by apply IH.
Qed.

(** Results do not depend on how much fuel is left over. *)
Lemma reconstruct_loop_fuel fuel fuel' par current acc :
  (fuel ≤ fuel')%nat →
  reconstruct_loop fuel par current acc ≠ OutOfFuel →
  reconstruct_loop fuel' par current acc = reconstruct_loop fuel par current acc.
Proof.
  revert fuel' current acc. induction fuel as [| fuel IH]; intros fuel' current acc Hle Hrun;
    [done |].
  destruct fuel' as [| fuel']; [lia |]. simpl in *.
  destruct (par !! board current) as [[p |] |]; [| done | done].
  apply IH; [lia | done].
Qed.

Lemma search_loop_fuel fuel fuel' self l :
  (fuel ≤ fuel')%nat →
  (search_loop fuel self l).2 ≠ OutOfFuel →
  search_loop fuel' self l = search_loop fuel self l.
Proof.
  revert fuel' self l. induction fuel as [| fuel IH]; intros fuel' self l Hle Hrun; [done |].
  destruct fuel' as [| fuel']; [lia |]. simpl in *.
  destruct (open_set l) as [| [[f c] current] rest]; [done |]. simpl in *.
  destruct (is_goal _ _).
  { simpl in Hrun. unfold _reconstruct_path in *.
    rewrite (reconstruct_loop_fuel fuel fuel'); [done | lia |].
    intros Hout. by rewrite Hout in Hrun. }
  destruct (bool_decide _); [apply IH; [lia | done] |].
  destruct (g_values l !! board current) as [current_g |]; [| done].
  destruct (get_neighbors current (game self)) as [ns | |]; [| done | done].
  match goal with
  | |- context [foldl ?f ?x ns] => destruct (foldl f x ns) as [a3 l3]
  end.
  apply IH; [lia | done].
Qed.

(** Engines that [search] cannot tell apart report the same. *)
Lemma search_same_setup fuel1 fuel2 a b s :
  same_setup a b →
  (search fuel1 a s).2 ≠ OutOfFuel →
  (search fuel2 b s).2 ≠ OutOfFuel →
  (search fuel1 a s).2 = (search fuel2 b s).2 ∧
  nodes_expanded (search fuel1 a s).1 = nodes_expanded (search fuel2 b s).1 ∧
  max_frontier_size (search fuel1 a s).1 = max_frontier_size (search fuel2 b s).1.
Proof.
  intros Hab Ha Hb. unfold search in *. simpl in *.
  destruct Hab as (Hg & Hh & Hn & Hm).
  rewrite <- Hg, <- Hh in *.
  set (l := mkLocals _ _ _ _ _) in *.
  rewrite <- (search_loop_fuel fuel1 (fuel1 `max` fuel2) a l) by (done || lia).
  rewrite <- (search_loop_fuel fuel2 (fuel1 `max` fuel2) b l) by (done || lia).
  destruct (search_loop_same_setup (fuel1 `max` fuel2) a b l) as [(_ & _ & Hn' & Hm') Hr];
    [done |].
  done.
Qed.

(** A run on any engine is the run on an engine with an empty log, no
    expansions and a peak [m] below its own, replayed on its counters. *)
Lemma search_from_zero fuel self m s :
  m ≤ max_frontier_size self →
  search fuel self s =
    rebase_result self (search fuel (mkAStar (game self) (heuristic_func self) 0 m []) s).
Proof.
  intros Hm. rewrite <- search_rebase. f_equal.
  destruct self as [g h n mf t]. unfold rebase; simpl in *.
  f_equal; [lia | lia | by rewrite app_nil_r].
Qed.

(** C5, as the code has it. Two invocations of [search] with the same
    initial state, on engines with the same game and heuristics that agree
    everywhere, that both run to completion, return the same result (path,
    no solution, or exception) and add the same number of expansions to
    [nodes_expanded], whatever the engines carried before.  The reported
    expansion count is the same when the engines started with equal
    [nodes_expanded], and the reported peak frontier size is the same when
    they started with equal [max_frontier_size] (two freshly constructed
    engines in particular).  When the second invocation runs on the engine
    the first one left behind, it reports the same peak and the expansions
    of the first run added to its own. *)
Theorem search_deterministic (fuel1 fuel2 : nat) (a b : AStar) (s : State) :
  game a = game b →
  (∀ s' goals, heuristic_func a s' goals = heuristic_func b s' goals) →
  (search fuel1 a s).2 ≠ OutOfFuel →
  (search fuel2 b s).2 ≠ OutOfFuel →
  (search fuel1 a s).2 = (search fuel2 b s).2 ∧
  nodes_expanded (search fuel1 a s).1 - nodes_expanded a =
    nodes_expanded (search fuel2 b s).1 - nodes_expanded b ∧
  (nodes_expanded a = nodes_expanded b →
     nodes_expanded (search fuel1 a s).1 = nodes_expanded (search fuel2 b s).1) ∧
  (max_frontier_size a = max_frontier_size b →
     max_frontier_size (search fuel1 a s).1 = max_frontier_size (search fuel2 b s).1) ∧
  (b = (search fuel1 a s).1 →
     nodes_expanded (search fuel2 b s).1 =
       nodes_expanded b + (nodes_expanded b - nodes_expanded a) ∧
     max_frontier_size (search fuel2 b s).1 = max_frontier_size b).
Proof.
  intros Hg Hh Ha Hb.
  set (m := Z.min (max_frontier_size a) (max_frontier_size b)).
  pose proof (search_from_zero fuel1 a m s ltac:(lia)) as Hra.
  pose proof (search_from_zero fuel2 b m s ltac:(lia)) as Hrb.
  set (a0 := mkAStar (game a) (heuristic_func a) 0 m []) in *.
  set (b0 := mkAStar (game b) (heuristic_func b) 0 m []) in *.
  rewrite Hra in Ha. rewrite Hrb in Hb. simpl in Ha, Hb.
  destruct (search_same_setup fuel1 fuel2 a0 b0 s) as (Hr & Hn & Hm); [done | done | done |].
  assert (Hna : nodes_expanded (search fuel1 a s).1
                = nodes_expanded a + nodes_expanded (search fuel1 a0 s).1)
    by (by rewrite Hra).
  assert (Hnb : nodes_expanded (search fuel2 b s).1
                = nodes_expanded b + nodes_expanded (search fuel2 b0 s).1)
    by (by rewrite Hrb).
  assert (Hma : max_frontier_size (search fuel1 a s).1
                = Z.max (max_frontier_size a) (max_frontier_size (search fuel1 a0 s).1))
    by (by rewrite Hra).
  assert (Hmb : max_frontier_size (search fuel2 b s).1
                = Z.max (max_frontier_size b) (max_frontier_size (search fuel2 b0 s).1))
    by (by rewrite Hrb).
  split; [rewrite Hra, Hrb; exact Hr |].
  split; [lia |]. split; [lia |]. split; [lia |].
  intros Hsame. rewrite <- Hsame in Hna, Hma. lia.
Qed.

Lemma search_deterministic_witness :
  let a := AStar_init PuzzleGame_init manhattan_distance in
  let b := (search 10 a middle_state).1 in
  (search 10 a middle_state).2 = (search 7 b middle_state).2 ∧
  nodes_expanded (search 10 a middle_state).1 - nodes_expanded a =
    nodes_expanded (search 7 b middle_state).1 - nodes_expanded b ∧
  (nodes_expanded a = nodes_expanded b →
     nodes_expanded (search 10 a middle_state).1 = nodes_expanded (search 7 b middle_state).1) ∧
  (max_frontier_size a = max_frontier_size b →
     max_frontier_size (search 10 a middle_state).1
       = max_frontier_size (search 7 b middle_state).1) ∧
  (b = (search 10 a middle_state).1 →
     nodes_expanded (search 7 b middle_state).1 =
       nodes_expanded b + (nodes_expanded b - nodes_expanded a) ∧
     max_frontier_size (search 7 b middle_state).1 = max_frontier_size b).
Proof.
  intros a b. apply (search_deterministic 10 7 a b middle_state).
  - symmetry. exact (proj1 (search_game 10 a middle_state)).
  - intros s' goals. unfold b. by rewrite (proj2 (search_game 10 a middle_state)).
  - vm_compute. discriminate.
  - vm_compute. discriminate.
Defined.

(** C5 fails as stated for two invocations on one engine object: from the
    default start state the first call reports 2 expansions and the second
    call, with the same initial state and heuristic and the same path,
    reports 4. *)
Lemma search_twice_same_engine :
  let first := search 10 (AStar_init PuzzleGame_init manhattan_distance) middle_state in
  let second := search 10 first.1 middle_state in
  first.2 = second.2 ∧
  first.2 ≠ OutOfFuel ∧
  nodes_expanded first.1 = 2 ∧
  nodes_expanded second.1 = 4 ∧
  nodes_expanded first.1 ≠ nodes_expanded second.1.
Proof.
  intros first second.
  assert (H1 : first.2 = second.2) by (vm_compute; reflexivity).
  assert (H2 : first.2 ≠ OutOfFuel) by (vm_compute; discriminate).
  assert (H3 : nodes_expanded first.1 = 2) by (vm_compute; reflexivity).
  assert (H4 : nodes_expanded second.1 = 4) by (vm_compute; reflexivity).
  assert (H5 : nodes_expanded first.1 ≠ nodes_expanded second.1)
    by (vm_compute; discriminate).
  exact (conj H1 (conj H2 (conj H3 (conj H4 H5)))).
Qed.

(* ===================================================================== *)
(** * The true cost of reaching a goal *)
(* ===================================================================== *)

Lemma existsb_elem {A} (f : A → bool) l :
  existsb f l = true ↔ ∃ x, x ∈ l ∧ f x = true.
Proof.
  rewrite existsb_exists. split; intros (x & Hx & Hf); exists x;
    (split; [by apply list_elem_of_In | done]).
Qed.

Lemma reach_within_sound game k s :
  reach_within game k s = true → ∃ k', (k' ≤ k)%nat ∧ reaches_goal game k' s.
Proof.
  revert s. induction k as [| k IH]; intros s Hr; simpl in Hr;
    apply orb_true_iff in Hr as [Hgoal | Hr]; try done.
  - exists 0%nat. split; [lia | by constructor].
  - exists 0%nat. split; [lia | by constructor].
  - destruct (get_neighbors s game) as [ns | |] eqn:Hns; [| done | done].
    apply existsb_elem in Hr as (t & Ht & Hr).
    apply IH in Hr as (k' & Hle & Hreach).
    exists (S k'). split; [lia |]. apply (reaches_step game k' s t); [| done].
    by exists ns.
Qed.

Lemma reach_within_complete game k k' s :
  reaches_goal game k' s → (k' ≤ k)%nat → reach_within game k s = true.
Proof.
  intros Hreach. revert k. induction Hreach as [s Hgoal | k' s t Hstep Hreach IH];
    intros k Hle.
  - destruct k; simpl; by rewrite Hgoal.
  - destruct k as [| k]; [lia |]. simpl. apply orb_true_iff. right.
    destruct Hstep as (ns & -> & Ht). apply existsb_elem. exists t.
    split; [done |]. apply IH. lia.
Qed.

(** Evaluating the shortest cost: reachable within [S k] transitions but
    not within [k]. *)
Lemma shortest_cost_S game s k :
  reach_within game (S k) s = true → reach_within game k s = false →
  shortest_cost game s (S k).
Proof.
  intros Hyes Hno. split.
  - apply reach_within_sound in Hyes as (k' & Hle & Hreach).
    destruct (decide (k' = S k)) as [-> | Hne]; [done |].
    rewrite (reach_within_complete game k k' s) in Hno; [done | done | lia].
  - intros k' Hreach. destruct (decide (S k ≤ k')%nat); [done |].
    rewrite (reach_within_complete game k k' s) in Hno; [done | done | lia].
Qed.

Lemma shortest_cost_unique game s k k' :
  shortest_cost game s k → shortest_cost game s k' → k = k'.
Proof. intros [H1 H2] [H1' H2']. apply H2 in H1'. apply H2' in H1. lia. Qed.

Lemma stepb_step game p q : stepb game p q = true → step game p q.
Proof.
  unfold stepb. destruct (get_neighbors p game) as [ns | |] eqn:Hns; [| done | done].
  intros Hq%bool_decide_eq_true. by exists ns.
Qed.

(* ===================================================================== *)
(** * Where the heuristics and the search miss the true cost *)
(* ===================================================================== *)

(** C3 on the code. [overestimated_state] is reachable from the default
    start state and its true cost to the nearest goal is 4, yet the
    Manhattan heuristic returns 6 and the misplaced-tiles heuristic 5: both
    overestimate, because one slide followed by an automatic swap moves
    several tiles at cost 1. *)
Theorem heuristics_not_admissible :
  valid_state overestimated_state ∧
  reachable PuzzleGame_init middle_state overestimated_state ∧
  shortest_cost PuzzleGame_init overestimated_state 4 ∧
  manhattan_distance overestimated_state (goal_states PuzzleGame_init) = Fin 6 ∧
  misplaced_tiles overestimated_state (goal_states PuzzleGame_init) = Fin 5.
Proof.
  split; [| split; [| split; [| split]]].
  - unfold valid_state, valid_board, in_range; simpl.
    split; [| lia]. apply (bool_decide_unpack _). by vm_compute.
  - apply (rtc_l _ _ (mkState (mkBoard 1 0 3 2 4 5 7 8 6) (0, 1)));
      [apply stepb_step; by vm_compute |].
    apply (rtc_l _ _ (mkState (mkBoard 1 4 3 2 0 5 7 8 6) (1, 1)));
      [apply stepb_step; by vm_compute |].
    apply (rtc_l _ _ (mkState (mkBoard 1 2 3 0 4 5 7 8 6) (1, 0)));
      [apply stepb_step; by vm_compute |].
    apply rtc_once. apply stepb_step; by vm_compute.
  - apply shortest_cost_S; by vm_compute.
  - by vm_compute.
  - by vm_compute.
Qed.

(** C1 on the code. From [detour_state] the engine with the Manhattan
    heuristic returns a path of 12 states, that is 11 moves, after 25
    expansions, while the true shortest-path cost to the nearest goal is 9. *)
Theorem search_not_shortest :
  valid_state detour_state ∧
  (∃ path,
     (search 100 (AStar_init PuzzleGame_init manhattan_distance) detour_state).2
       = Return (Some path) ∧
     length path = 12%nat) ∧
  nodes_expanded (search 100 (AStar_init PuzzleGame_init manhattan_distance) detour_state).1 = 25 ∧
  shortest_cost PuzzleGame_init detour_state 9.
Proof.
  split; [| split; [| split]].
  - unfold valid_state, valid_board, in_range; simpl.
    split; [| lia]. apply (bool_decide_unpack _). by vm_compute.
  - eexists. split; vm_compute; reflexivity.
  - vm_compute; reflexivity.
  - apply shortest_cost_S; vm_compute; reflexivity.
Qed.

(* ===================================================================== *)
(** * A*: the search returns *)
(* ===================================================================== *)

(** The valid boards form a finite set. *)
Lemma valid_boards_finite : ∃ all_boards : gset Board, ∀ b, valid_board b → b ∈ all_boards.
Proof.
  exists (list_to_set (omap of_cells (permutations [0; 1; 2; 3; 4; 5; 6; 7; 8]))).
  intros b Hb. apply elem_of_list_to_set, list_elem_of_omap. exists (cells b). split.
  - apply permutations_Permutation. by symmetry.
  - by destruct b.
Qed.

Lemma neighbors_along_length game s ms ns :
  neighbors_along game s ms = Return ns → (length ns ≤ length ms)%nat.
Proof.
  revert ns. induction ms as [| d ms IH]; intros ns Hns; simpl in Hns.
  { by injection Hns as <-. }
  destruct (slide game s d) as [o | |]; [| done | done]. simpl in Hns.
  destruct (neighbors_along game s ms) as [rest | |]; [| done | done]. simpl in Hns.
  injection Hns as <-. specialize (IH rest eq_refl). destruct o; simpl; lia.
Qed.

Lemma get_neighbors_length game s ns :
  get_neighbors s game = Return ns → (length ns ≤ 4)%nat.
Proof. intros Hns. by apply neighbors_along_length in Hns. Qed.

Lemma is_Some_insert {V} (m : gmap Board V) k k' v :
  is_Some (m !! k') → is_Some (<[k := v]> m !! k').
Proof.
  intros Hs. destruct (decide (k = k')) as [-> | Hne].
  - rewrite lookup_insert_eq. by eexists.
  - by rewrite lookup_insert_ne.
Qed.

Section termination.
Variable gm : PuzzleGame.
Variable s0 : State.
Hypothesis s0_valid : valid_state s0.
Variable all_boards : gset Board.
Hypothesis valid_board_all_boards : ∀ b, valid_board b → b ∈ all_boards.

Lemma search_wf_initial h :
  search_wf gm s0 (mkLocals (heappush [] (h, 0, s0)) ∅ {[board s0 := 0]}
                            {[board s0 := None]} 0).
Proof.
  split; simpl.
  - by apply search_inv_initial.
  - intros e ->%list_elem_of_singleton. simpl. rewrite lookup_singleton_eq. by eexists.
  - intros e ->%list_elem_of_singleton. simpl. rewrite lookup_singleton_eq. by eexists.
  - intros k Hk. by apply not_elem_of_empty in Hk.
  - intros k p Hk. apply lookup_singleton_Some in Hk. by destruct Hk.
  - intros k g Hk. apply lookup_singleton_Some in Hk. lia.
Qed.

Lemma relax_wf current current_g self l neighbor :
  search_wf gm s0 l → expanding current current_g l →
  valid_state current → step gm current neighbor →
  let l' := (relax current current_g (self, l) neighbor).2 in
  search_wf gm s0 l' ∧ expanding current current_g l' ∧
  closed_set l' = closed_set l ∧
  (length (open_set l') ≤ S (length (open_set l)))%nat.
Proof.
  intros Hwf Hexp Hcur Hstep l'.
  pose proof Hexp as (Hcc & Hcg & Hcp & Hcb).
  assert (Hinv' : search_inv gm s0 l').
  { apply relax_inv; try done; [apply Hwf |].
    by apply (inv_g_nonneg _ _ _ (wf_inv _ _ _ Hwf) (board current)). }
  subst l'.
  destruct (relax_cases current current_g self l neighbor) as [Heq | (Heq & Hnc & _)];
    rewrite Heq in *; simpl in *.
  { split; [done |]. split; [done |]. split; [done | lia]. }
  assert (Hne : board neighbor ≠ board current) by (intros Hb; by rewrite Hb in Hnc).
  destruct Hwf as [_ Hog Hop Hcv Hpg Hgb].
  split; [| split; [| split]]; simpl.
  - split; simpl; [done | | | done | |].
    + intros e [-> | He]%elem_of_heappush; simpl.
      * rewrite lookup_insert_eq. by eexists.
      * by apply is_Some_insert, Hog.
    + intros e [-> | He]%elem_of_heappush; simpl.
      * rewrite lookup_insert_eq. by eexists.
      * by apply is_Some_insert, Hop.
    + intros k p Hk. destruct (decide (board neighbor = k)) as [<- | Hk'].
      * rewrite lookup_insert_eq in Hk. injection Hk as <-.
        split; [done |]. split; [by apply is_Some_insert |].
        exists current_g. rewrite lookup_insert_ne by done.
        by rewrite lookup_insert_eq.
      * rewrite lookup_insert_ne in Hk by done.
        destruct (Hpg k p Hk) as (Hpc & Hpp & gp & Hgp & Hgk).
        split; [done |]. split; [by apply is_Some_insert |].
        exists gp. rewrite !lookup_insert_ne; [done | done |].
        intros Hb. by rewrite Hb in Hnc.
    + intros k g Hk. destruct (decide (board neighbor = k)) as [<- | Hk'].
      * rewrite lookup_insert_eq in Hk. by injection Hk as <-.
      * rewrite lookup_insert_ne in Hk by done. by apply (Hgb k).
  - unfold expanding; simpl. split; [done |]. split; [by rewrite lookup_insert_ne |].
    split; [by apply is_Some_insert | done].
  - done.
  - by rewrite length_heappush.
Qed.

Lemma foldl_relax_wf current current_g ns self l :
  search_wf gm s0 l → expanding current current_g l →
  valid_state current → (∀ n, n ∈ ns → step gm current n) →
  let l' := (foldl (relax current current_g) (self, l) ns).2 in
  search_wf gm s0 l' ∧ closed_set l' = closed_set l ∧
  (length (open_set l') ≤ length (open_set l) + length ns)%nat.
Proof.
  intros Hwf Hexp Hcur. revert self l Hwf Hexp.
  induction ns as [| n ns IH]; intros self l Hwf Hexp Hns; simpl.
  { split; [done |]. split; [done | lia]. }
  destruct (relax_wf current current_g self l n Hwf Hexp Hcur) as (Hwf' & Hexp' & Hc & Hlen).
  { apply Hns. by left. }
  destruct (relax current current_g (self, l) n) as [self' l']. simpl in *.
  destruct (IH self' l' Hwf' Hexp') as (Hwf'' & Hc'' & Hlen'').
  { intros m Hm. apply Hns. by right. }
  split; [done |]. split; [congruence | lia].
Qed.

(** Following parent links stops: the recorded cost drops by one per link. *)
Lemma reconstruct_loop_total l fuel current acc g :
  search_wf gm s0 l →
  g_values l !! board current = Some g →
  is_Some (parent l !! board current) →
  (Z.to_nat g < fuel)%nat →
  ∃ path, reconstruct_loop fuel (parent l) current acc = Return path.
Proof.
  intros Hwf. revert current acc g.
  induction fuel as [| fuel IH]; intros current acc g Hg [q Hq] Hfuel; [lia |].
  simpl. rewrite Hq. destruct q as [p |]; [| by eexists].
  destruct (wf_parent_g _ _ _ Hwf _ _ Hq) as (_ & Hpp & gp & Hgp & Hgk).
  rewrite Hg in Hgk. injection Hgk as ->.
  apply (IH p _ gp); [done | done |].
  pose proof (inv_g_nonneg _ _ _ (wf_inv _ _ _ Hwf) _ _ Hgp). lia.
Qed.

(** Marking [current] as explored. *)
Lemma search_wf_close open' closed gs ps cnt current current_g :
  search_wf gm s0 (mkLocals open' closed gs ps cnt) →
  valid_state current → board current ∉ closed →
  gs !! board current = Some current_g → is_Some (ps !! board current) →
  search_wf gm s0 (mkLocals open' (closed ∪ {[board current]}) gs ps cnt) ∧
  expanding current current_g (mkLocals open' (closed ∪ {[board current]}) gs ps cnt).
Proof.
  intros [Hi Hog Hop Hcv Hpg Hgb] Hcur Hnc Hg Hpar. simpl in *.
  assert (Hsize : size (closed ∪ {[board current]}) = S (size closed)).
  { rewrite size_union by by apply disjoint_singleton_r.
    rewrite size_singleton. lia. }
  split.
  - split; simpl.
    + destruct Hi. by split.
    + done.
    + done.
    + intros k [Hk | ->%elem_of_singleton]%elem_of_union; [by apply Hcv | apply Hcur].
    + intros k p Hk. destruct (Hpg k p Hk) as (Hpc & Hrest).
      split; [| done]. apply elem_of_union. by left.
    + intros k g Hk. specialize (Hgb k g Hk). lia.
  - unfold expanding; simpl. split; [| split; [done | split; [done |]]].
    + apply elem_of_union. right. by apply elem_of_singleton.
    + specialize (Hgb _ _ Hg). lia.
Qed.

Lemma search_loop_total fuel self l :
  game self = gm → search_wf gm s0 l →
  (work_left all_boards l + size all_boards < fuel)%nat →
  ∃ r, (search_loop fuel self l).2 = Return r.
Proof.
  revert self l. induction fuel as [| fuel IH]; intros self l Hgame Hwf Hfuel; [lia |].
  simpl. destruct (open_set l) as [| [[f c] current] rest] eqn:Hopen; [by eexists |].
  simpl. rewrite Hgame.
  assert (Hin : (f, c, current) ∈ open_set l) by (rewrite Hopen; by left).
  assert (Hcur : valid_state current).
  { by apply (inv_open _ _ _ (wf_inv _ _ _ Hwf) _ Hin). }
  destruct (wf_open_g _ _ _ Hwf _ Hin) as [current_g Hg]. simpl in Hg.
  pose proof (wf_open_parent _ _ _ Hwf _ Hin) as Hpar. simpl in Hpar.
  assert (Hsub : closed_set l ⊆ all_boards).
  { intros k Hk. apply valid_board_all_boards. by apply (wf_closed_valid _ _ _ Hwf). }
  pose proof (subseteq_size _ _ Hsub) as Hsize.
  pose proof (wf_g_bound _ _ _ Hwf _ _ Hg) as Hbound.
  assert (Hwork : work_left all_boards l
                  = (S (length rest) + 5 * size (all_boards ∖ closed_set l))%nat).
  { unfold work_left. by rewrite Hopen. }
  assert (Hrest : search_wf gm s0
            (mkLocals rest (closed_set l) (g_values l) (parent l) (counter l))).
  { destruct Hwf as [[] Hog Hop Hcv Hpg Hgb]. split; [split |..]; simpl; try done.
    - intros e He. apply inv_open0. rewrite Hopen. by right.
    - intros e He. apply Hog. rewrite Hopen. by right.
    - intros e He. apply Hop. rewrite Hopen. by right. }
  destruct (is_goal current (goal_states gm)).
  { simpl. unfold _reconstruct_path.
    destruct (reconstruct_loop_total l fuel current [current] current_g) as [path ->];
      try done; [lia |]. by eexists. }
  destruct (bool_decide (board current ∈ closed_set l)) eqn:Hclosed.
  { apply IH; [done | done |]. unfold work_left. simpl. lia. }
  apply bool_decide_eq_false in Hclosed. rewrite Hg.
  destruct (get_neighbors_valid gm current Hcur) as (ns & Hns & Hvalid). rewrite Hns.
  pose proof (get_neighbors_length gm current ns Hns) as Hlen.
  assert (Hless : (size (all_boards ∖ (closed_set l ∪ {[board current]}))
                   < size (all_boards ∖ closed_set l))%nat).
  { apply subset_size.
    assert (Hmem : board current ∈ all_boards) by (apply valid_board_all_boards, Hcur).
    split.
    - intros k [Hk Hnk]%elem_of_difference. apply elem_of_difference.
      split; [done |]. intros Hk'. apply Hnk, elem_of_union. by left.
    - intros Hsubset. specialize (Hsubset (board current)).
      rewrite !elem_of_difference, elem_of_union, elem_of_singleton in Hsubset.
      destruct Hsubset as [_ Hno]; [done |]. apply Hno. by right. }
  destruct (search_wf_close rest (closed_set l) (g_values l) (parent l) (counter l)
              current current_g Hrest Hcur Hclosed Hg Hpar) as [Hwf2 Hexp2].
  set (self2 := mkAStar gm (heuristic_func self) (nodes_expanded self + 1)
                  (Z.max (max_frontier_size self) (Z.of_nat (S (length rest))))
                  (search_tree self)).
  set (l2 := mkLocals rest (closed_set l ∪ {[board current]}) (g_values l) (parent l)
                      (counter l)) in *.
  destruct (foldl_relax_wf current current_g ns self2 l2 Hwf2 Hexp2 Hcur)
    as (Hwf3 & Hc3 & Hlen3).
  { intros n Hn. by exists ns. }
  pose proof (proj1 (foldl_relax_game current current_g ns self2 l2)) as Hg3.
  destruct (foldl (relax current current_g) (self2, l2) ns) as [self3 l3].
  simpl in *. apply IH; [done | done |].
  unfold work_left. rewrite Hc3. lia.
Qed.
End termination.

(** For a valid initial state the search stops and raises nothing: with
    enough fuel (and then with any larger amount) it returns a path or
    "no solution". *)
Lemma search_total self s0 :
  valid_state s0 →
  ∃ fuel r, ∀ fuel', (fuel ≤ fuel')%nat → (search fuel' self s0).2 = Return r.
Proof.
  intros Hs0. destruct valid_boards_finite as [all_boards Hall].
  set (l0 := mkLocals (heappush [] (heuristic_func self s0 (goal_states (game self)), 0, s0))
                      ∅ {[board s0 := 0]} {[board s0 := None]} 0).
  set (fuel := S (work_left all_boards l0 + size all_boards)).
  destruct (search_loop_total (game self) s0 all_boards Hall fuel
              self l0 eq_refl (search_wf_initial _ _ Hs0 _)) as [r Hr]; [unfold fuel; lia |].
  exists fuel, r. intros fuel' Hle.
  change (search fuel' self s0) with (search_loop fuel' self l0).
  rewrite (search_loop_fuel fuel fuel' self l0 Hle); [exact Hr |].
  rewrite Hr. discriminate.
Qed.

(* ===================================================================== *)
(** * Further properties of the board and the transition rule *)
(* ===================================================================== *)

#[global] Arguments apply_special_rules : simpl never.

(** X1. Two cells are adjacent for [_are_adjacent] exactly when their
    Manhattan distance is 1 (so never a cell with itself, never a
    diagonal), and the test does not depend on the order of the cells. *)
Theorem are_adjacent_manhattan (i1 j1 i2 j2 : Z) :
  (_are_adjacent i1 j1 i2 j2 = true ↔ Z.abs (i1 - i2) + Z.abs (j1 - j2) = 1) ∧
  _are_adjacent i1 j1 i2 j2 = _are_adjacent i2 j2 i1 j1.
Proof. apply are_adjacent_iff. Qed.

Lemma special_positions_NoDup b v p :
  NoDup (cells b) →
  special_positions b !! v = Some p ↔ p ∈ grid ∧ get b p.1 p.2 = v ∧ v ∈ [1; 2; 3; 4].
Proof.
  intros Hnd. split; [apply special_positions_Some |].
  intros (Hp & Hv & Hin).
  destruct (scan_lookup_is_Some (λ v, bool_decide (v ∈ [1; 2; 3; 4])) b grid ∅ v)
    as [q Hq]; [by apply bool_decide_eq_true | by exists p |].
  rewrite special_positions_scan, Hq. f_equal.
  rewrite <- special_positions_scan in Hq.
  apply special_positions_Some in Hq as (Hqg & Hqv & _).
  apply (NoDup_cell_unique b); try done. congruence.
Qed.

Lemma swap_cells_involutive b p q :
  p ∈ grid → q ∈ grid → swap_cells (swap_cells b p q) q p = b.
Proof.
  intros Hp Hq. apply board_ext. intros r Hr.
  rewrite !get_swap_cells by done.
  repeat case_decide; subst; try done.
Qed.

Lemma swap_cells_NoDup b p q :
  NoDup (cells b) → p ∈ grid → q ∈ grid → NoDup (cells (swap_cells b p q)).
Proof. intros Hnd Hp Hq. by rewrite swap_cells_perm. Qed.

Lemma swap_if_adjacent_ext positions positions' x y b :
  positions !! x = positions' !! x → positions !! y = positions' !! y →
  swap_if_adjacent positions x y b = swap_if_adjacent positions' x y b.
Proof. intros Hx Hy. unfold swap_if_adjacent. by rewrite Hx, Hy. Qed.

(** One rule of the pair, with the cells located on the board it is run on. *)
Lemma rule_involutive b x y :
  NoDup (cells b) → x ≠ y → x ∈ [1; 2; 3; 4] → y ∈ [1; 2; 3; 4] →
  let b' := swap_if_adjacent (special_positions b) x y b in
  swap_if_adjacent (special_positions b') x y b' = b.
Proof.
  intros Hnd Hxy Hx Hy b'. subst b'. unfold swap_if_adjacent at 2 3.
  destruct (special_positions b !! x) as [px |] eqn:Hpx.
  2: { unfold swap_if_adjacent. by rewrite Hpx. }
  destruct (special_positions b !! y) as [py |] eqn:Hpy.
  2: { unfold swap_if_adjacent. by rewrite Hpx, Hpy. }
  destruct (_are_adjacent px.1 px.2 py.1 py.2) eqn:Hadj.
  2: { unfold swap_if_adjacent. by rewrite Hpx, Hpy, Hadj. }
  apply special_positions_Some in Hpx as (Hgx & Hvx & _).
  apply special_positions_Some in Hpy as (Hgy & Hvy & _).
  assert (Hne : px ≠ py) by (intros ->; congruence).
  assert (Hnd' : NoDup (cells (swap_cells b px py))) by by apply swap_cells_NoDup.
  assert (Hx' : special_positions (swap_cells b px py) !! x = Some py).
  { apply special_positions_NoDup; [done |]. split; [done |]. split; [| done].
    rewrite get_swap_cells by done. by rewrite decide_True. }
  assert (Hy' : special_positions (swap_cells b px py) !! y = Some px).
  { apply special_positions_NoDup; [done |]. split; [done |]. split; [| done].
    rewrite get_swap_cells by done. rewrite decide_False by done. by rewrite decide_True. }
  unfold swap_if_adjacent. rewrite Hx', Hy'.
  rewrite (proj2 (are_adjacent_iff py.1 py.2 px.1 px.2)), Hadj.
  by apply swap_cells_involutive.
Qed.

Lemma special_positions_stable b x y v :
  v ≠ x → v ≠ y →
  special_positions (swap_if_adjacent (special_positions b) x y b) !! v =
  special_positions b !! v.
Proof.
  intros Hx Hy. rewrite !special_positions_scan. apply scan_agree; [| done].
  intros p Hp. rewrite <- special_positions_scan.
  apply swap_if_adjacent_get; try done.
  - intros q Hq. by apply special_positions_Some in Hq as (? & ? & _).
  - intros q Hq. by apply special_positions_Some in Hq as (? & ? & _).
Qed.

Lemma swap_if_adjacent_NoDup positions x y b :
  (∀ p, positions !! x = Some p → p ∈ grid) →
  (∀ p, positions !! y = Some p → p ∈ grid) →
  NoDup (cells b) → NoDup (cells (swap_if_adjacent positions x y b)).
Proof. intros Hx Hy Hnd. by rewrite swap_if_adjacent_perm. Qed.

(** The two rules touch different cells, so their order does not matter. *)
Lemma rules_commute positions b :
  (∀ v p, positions !! v = Some p → p ∈ grid ∧ get b p.1 p.2 = v) →
  swap_if_adjacent positions 1 3 (swap_if_adjacent positions 2 4 b) =
  swap_if_adjacent positions 2 4 (swap_if_adjacent positions 1 3 b).
Proof.
  intros Hpos. unfold swap_if_adjacent.
  destruct (positions !! 1) as [p1 |] eqn:H1; [| done].
  destruct (positions !! 3) as [p3 |] eqn:H3; [| done].
  destruct (positions !! 2) as [p2 |] eqn:H2; [| done].
  destruct (positions !! 4) as [p4 |] eqn:H4; [| done].
  destruct (_are_adjacent p1.1 p1.2 p3.1 p3.2); [| done].
  destruct (_are_adjacent p2.1 p2.2 p4.1 p4.2); [| done].
  destruct (Hpos 1 p1 H1) as [Hg1 Hv1], (Hpos 3 p3 H3) as [Hg3 Hv3],
    (Hpos 2 p2 H2) as [Hg2 Hv2], (Hpos 4 p4 H4) as [Hg4 Hv4].
  apply board_ext. intros r Hr. rewrite !get_swap_cells by done.
  repeat case_decide; subst; try done; congruence.
Qed.

Lemma apply_special_rules_board_involutive b :
  NoDup (cells b) → apply_special_rules_board (apply_special_rules_board b) = b.
Proof.
  intros Hnd.
  set (r13 := λ c, swap_if_adjacent (special_positions c) 1 3 c).
  set (r24 := λ c, swap_if_adjacent (special_positions c) 2 4 c).
  assert (Hpos : ∀ c v p, special_positions c !! v = Some p → p ∈ grid)
    by (intros c v p Hp; by apply special_positions_Some in Hp as (? & _)).
  assert (Hseq : ∀ c, apply_special_rules_board c = r24 (r13 c)).
  { intros c. unfold apply_special_rules_board, r24, r13. simpl.
    apply swap_if_adjacent_ext; by rewrite special_positions_stable. }
  assert (Hcomm : ∀ c, r13 (r24 c) = r24 (r13 c)).
  { intros c.
    change (swap_if_adjacent (special_positions (r24 c)) 1 3 (r24 c) =
            swap_if_adjacent (special_positions (r13 c)) 2 4 (r13 c)).
    rewrite (swap_if_adjacent_ext (special_positions (r24 c)) (special_positions c) 1 3)
      by (unfold r24; by rewrite special_positions_stable).
    rewrite (swap_if_adjacent_ext (special_positions (r13 c)) (special_positions c) 2 4)
      by (unfold r13; by rewrite special_positions_stable).
    unfold r24, r13. apply rules_commute.
    intros v p Hp. by apply special_positions_Some in Hp as (? & ? & _). }
  assert (H13 : r13 (r13 b) = b).
  { apply (rule_involutive b 1 3); [done | done | |];
      apply (bool_decide_unpack _); by vm_compute. }
  assert (H24 : r24 (r24 b) = b).
  { apply (rule_involutive b 2 4); [done | done | |];
      apply (bool_decide_unpack _); by vm_compute. }
  rewrite !Hseq, Hcomm, H13. exact H24.
Qed.

(** X2. On a board of the data model the automatic swap rule undoes itself:
    applying [apply_special_rules] twice gives the state back (a swapped
    pair is still adjacent, so the second pass swaps it again). *)
Theorem apply_special_rules_involutive (game : PuzzleGame) (state : State) :
  valid_board (board state) →
  apply_special_rules game (apply_special_rules game state) = state.
Proof.
  intros Hb. destruct state as [b bp]. unfold apply_special_rules. simpl in *.
  f_equal. by apply apply_special_rules_board_involutive, valid_board_NoDup.
Qed.

Lemma swapping_state_valid : valid_state swapping_state.
Proof.
  unfold valid_state, valid_board, in_range; simpl.
  split; [| lia]. apply (bool_decide_unpack _). by vm_compute.
Defined.

Lemma apply_special_rules_involutive_witness :
  valid_board (board swapping_state) ∧
  apply_special_rules PuzzleGame_init swapping_state ≠ swapping_state ∧
  apply_special_rules PuzzleGame_init (apply_special_rules PuzzleGame_init swapping_state)
    = swapping_state.
Proof.
  split; [exact (proj1 swapping_state_valid) |]. split.
  - by vm_compute.
  - exact (apply_special_rules_involutive PuzzleGame_init swapping_state
             (proj1 swapping_state_valid)).
Defined.

Lemma get_neighbors_blank_targets game b i j :
  in_range i → in_range j →
  ∃ ns, get_neighbors (mkState b (i, j)) game = Return ns ∧
        blank_pos <$> ns = blank_targets i j.
Proof.
  intros Hi Hj. unfold get_neighbors, neighbors_along, slide, moves.
  range_cases Hi; range_cases Hj; simpl; eexists; (split; [reflexivity |]);
    by vm_compute.
Qed.

Lemma blank_targets_facts i j :
  in_range i → in_range j →
  length (blank_targets i j)
    = ((if bool_decide (i = 1)%Z then 2 else 1) + (if bool_decide (j = 1)%Z then 2 else 1))%nat ∧
  NoDup (blank_targets i j) ∧
  ∀ p, p ∈ blank_targets i j → _are_adjacent i j p.1 p.2 = true.
Proof.
  intros Hi Hj. range_cases Hi; range_cases Hj;
    (split; [by vm_compute | split; [apply (bool_decide_unpack _); by vm_compute |]]);
    intros p Hp; vm_compute in Hp;
    repeat (apply elem_of_cons in Hp as [-> | Hp]; [by vm_compute |]);
    by apply elem_of_nil in Hp.
Qed.

(** X3. [get_neighbors] returns one state per in-bounds slide: two from a
    corner, three from an edge, four from the centre. *)
Theorem get_neighbors_count (game : PuzzleGame) (s : State) :
  in_range (blank_pos s).1 → in_range (blank_pos s).2 →
  ∃ ns, get_neighbors s game = Return ns ∧
        length ns = ((if bool_decide ((blank_pos s).1 = 1)%Z then 2 else 1) +
                     (if bool_decide ((blank_pos s).2 = 1)%Z then 2 else 1))%nat ∧
        (2 ≤ length ns ≤ 4)%nat.
Proof.
  intros Hi Hj. destruct s as [b [i j]]. simpl in *.
  destruct (get_neighbors_blank_targets game b i j Hi Hj) as (ns & Hns & Hpos).
  destruct (blank_targets_facts i j Hi Hj) as (Hlen & _ & _).
  exists ns. split; [done |].
  assert (Hl : length ns = length (blank_targets i j))
    by (by rewrite <- Hpos, length_fmap).
  rewrite Hl, Hlen. split; [done |].
  repeat case_bool_decide; lia.
Qed.

Lemma get_neighbors_count_witness :
  ∃ ns, get_neighbors middle_state PuzzleGame_init = Return ns ∧
        length ns = ((if bool_decide ((blank_pos middle_state).1 = 1)%Z then 2 else 1) +
                     (if bool_decide ((blank_pos middle_state).2 = 1)%Z then 2 else 1))%nat ∧
        (2 ≤ length ns ≤ 4)%nat.
Proof.
  apply (get_neighbors_count PuzzleGame_init middle_state);
    unfold in_range; simpl; lia.
Defined.

Lemma NoDup_fmap_transfer {A B C} (f : A → B) (g : A → C) (l : list A) :
  NoDup (f <$> l) →
  (∀ x y, x ∈ l → y ∈ l → g x = g y → f x = f y) →
  NoDup (g <$> l).
Proof.
  induction l as [| a l IH]; intros Hnd Hinj; simpl in *; [constructor |].
  apply NoDup_cons in Hnd as [Hnotin Hnd]. constructor.
  - intros (y & Hgy & Hy)%list_elem_of_fmap. apply Hnotin.
    apply list_elem_of_fmap. exists y. split; [| done].
    apply Hinj; [by left | by right | done].
  - apply IH; [done |]. intros x y Hx Hy. apply Hinj; by right.
Qed.

(** X4. From a valid state every neighbor has its blank on a cell adjacent
    to the old blank, the neighbors are in the order up, down, left, right
    of the moves that stay on the board, their boards are pairwise
    different, and none of them is the board the move started from. *)
Theorem get_neighbors_moves_blank (game : PuzzleGame) (s : State) (ns : list State) :
  valid_state s → get_neighbors s game = Return ns →
  blank_pos <$> ns = blank_targets (blank_pos s).1 (blank_pos s).2 ∧
  NoDup (board <$> ns) ∧
  ∀ n, n ∈ ns →
    _are_adjacent (blank_pos s).1 (blank_pos s).2 (blank_pos n).1 (blank_pos n).2 = true ∧
    board n ≠ board s.
Proof.
  intros Hs Hns. pose proof Hs as (Hb & Hi & Hj & H0).
  destruct (get_neighbors_valid game s Hs) as (ns' & Hns' & Hvalid).
  rewrite Hns in Hns'. injection Hns' as <-.
  assert (Hvalid' : ∀ n, n ∈ ns → valid_state n) by by apply Forall_forall.
  destruct s as [b [i j]]. simpl in *.
  destruct (get_neighbors_blank_targets game b i j Hi Hj) as (ns' & Hns' & Hpos).
  rewrite Hns in Hns'. injection Hns' as <-.
  destruct (blank_targets_facts i j Hi Hj) as (_ & Hnd & Hadj).
  split; [done |]. split.
  - apply (NoDup_fmap_transfer blank_pos board).
    + by rewrite Hpos.
    + intros x y Hx Hy Heq. f_equal. apply valid_state_eq; auto.
  - intros n Hn.
    assert (Hin : blank_pos n ∈ blank_targets i j).
    { rewrite <- Hpos. apply list_elem_of_fmap. by exists n. }
    split; [by apply Hadj |].
    intros Heq. destruct (Hvalid' n Hn) as (Hbn & Hin1 & Hin2 & H0n).
    rewrite Heq in H0n.
    assert (Hsame : blank_pos n = (i, j)).
    { destruct (blank_pos n) as [ni nj] eqn:Hbp. simpl in *.
      apply (valid_blank_unique b (ni, nj) (i, j)); try done; by apply in_range_grid. }
    specialize (Hadj _ Hin). rewrite Hsame in Hadj. simpl in Hadj.
    apply are_adjacent_iff in Hadj. lia.
Qed.

Lemma get_neighbors_moves_blank_witness :
  ∃ ns, get_neighbors middle_state PuzzleGame_init = Return ns ∧
    blank_pos <$> ns = blank_targets (blank_pos middle_state).1 (blank_pos middle_state).2 ∧
    NoDup (board <$> ns) ∧
    ∀ n, n ∈ ns →
      _are_adjacent (blank_pos middle_state).1 (blank_pos middle_state).2
                    (blank_pos n).1 (blank_pos n).2 = true ∧
      board n ≠ board middle_state.
Proof.
  eexists. split; [vm_compute; reflexivity |].
  apply (get_neighbors_moves_blank PuzzleGame_init middle_state _ middle_state_valid).
  vm_compute; reflexivity.
Defined.

(* ===================================================================== *)
(** * Constructing states *)
(* ===================================================================== *)

Lemma StronglySorted_filter_keep {A} (R : relation A) (P : A → Prop)
    `{∀ x, Decision (P x)} (l : list A) :
  StronglySorted R l → StronglySorted R (filter P l).
Proof.
  induction 1 as [| x l Hsorted IH Hall]; [constructor |].
  rewrite filter_cons. case_decide; [| done]. constructor; [done |].
  apply Forall_forall. intros y [_ Hy]%list_elem_of_filter.
  by apply (proj1 (Forall_forall _ _) Hall).
Qed.

Lemma find_blank_cases b :
  (∃ p, _find_blank b = Return p ∧ p ∈ grid ∧ get b p.1 p.2 = 0) ∨
  (_find_blank b = Raise IndexError ∧ 0 ∉ cells b).
Proof.
  unfold _find_blank.
  destruct (filter (λ p, get b p.1 p.2 = 0) grid) as [| p rest] eqn:Hf.
  - right. split; [done |]. intros (p & Hp & H0)%elem_of_cells.
    assert (Hin : p ∈ filter (λ p, get b p.1 p.2 = 0) grid)
      by (by apply list_elem_of_filter).
    rewrite Hf in Hin. by apply elem_of_nil in Hin.
  - left. exists p. split; [done |].
    assert (Hin : p ∈ filter (λ p, get b p.1 p.2 = 0) grid)
      by (rewrite Hf; by left).
    apply list_elem_of_filter in Hin as [H0 Hp]. done.
Qed.

Lemma np_array_cases b :
  (np_array b = Return b ∧ Forall int64 (cells b)) ∨
  (np_array b = Raise OverflowError ∧ ¬ Forall int64 (cells b)).
Proof. unfold np_array. case_bool_decide; [by left | by right]. Qed.

Lemma valid_board_int64 b : valid_board b → Forall int64 (cells b).
Proof.
  intros Hb. unfold valid_board in Hb. rewrite Hb.
  repeat constructor; unfold int64; lia.
Qed.

Lemma np_array_valid b : valid_board b → np_array b = Return b.
Proof.
  intros Hb. destruct (np_array_cases b) as [[-> _] | [_ Hno]]; [done |].
  by apply valid_board_int64 in Hb.
Qed.

(** X5. [State(board)] without a [blank_pos] on a permutation board of 0..8
    returns a state with that board that satisfies the data-model
    invariant: the scan finds the cell holding 0. *)
Theorem State_init_valid (b : Board) :
  valid_board b →
  ∃ p, State_init b None = Return (mkState b p) ∧ valid_state (mkState b p).
Proof.
  intros Hb. unfold State_init. rewrite (np_array_valid b Hb). simpl.
  destruct (find_blank_cases b) as [(p & -> & Hp & H0) | [_ Hno]].
  - exists p. split; [done |]. apply grid_in_range in Hp as [Hp1 Hp2].
    unfold valid_state; simpl. split; [done |]. split; [done |]. split; done.
  - exfalso. apply Hno. unfold valid_board in Hb. rewrite Hb.
    apply (bool_decide_unpack _). by vm_compute.
Qed.

Lemma State_init_valid_witness :
  ∃ p, State_init (mkBoard 1 2 3 4 0 5 7 8 6) None
         = Return (mkState (mkBoard 1 2 3 4 0 5 7 8 6) p) ∧
       valid_state (mkState (mkBoard 1 2 3 4 0 5 7 8 6) p).
Proof.
  apply (State_init_valid (mkBoard 1 2 3 4 0 5 7 8 6)).
  exact (proj1 middle_state_valid).
Defined.

(** X6. [State(board)] without a [blank_pos] first converts the board:
    a cell that does not fit into a 64-bit integer raises [OverflowError].
    On a board that converts and has no cell holding 0 it raises
    [IndexError] (from [blank_pos[0][0]] on the empty result of
    [np.where]).  Whenever it returns, the state holds the board as given
    and [blank_pos] is the first cell holding 0 in row-major order: a board
    with several zeros is accepted without complaint. *)
Theorem State_init_blank_scan (b : Board) :
  (¬ Forall int64 (cells b) → State_init b None = Raise OverflowError) ∧
  (Forall int64 (cells b) → 0 ∉ cells b → State_init b None = Raise IndexError) ∧
  (∀ s, State_init b None = Return s →
        board s = b ∧ Forall int64 (cells b) ∧
        blank_pos s ∈ grid ∧ get b (blank_pos s).1 (blank_pos s).2 = 0 ∧
        ∀ q, q ∈ grid → get b q.1 q.2 = 0 →
             (offset (blank_pos s).1 (blank_pos s).2 ≤ offset q.1 q.2)%nat).
Proof.
  unfold State_init.
  destruct (np_array_cases b) as [[-> Hfit] | [-> Hno]]; simpl.
  2: { split; [done |]. split; [intros Hfit; by destruct Hno | done]. }
  split; [intros Hno; by destruct Hno |]. split.
  - unfold _find_blank.
    intros _ Hno.
    destruct (filter (λ p, get b p.1 p.2 = 0) grid) as [| p rest] eqn:Hf; [done |].
    exfalso. apply Hno.
    assert (Hin : p ∈ filter (λ p, get b p.1 p.2 = 0) grid) by (rewrite Hf; by left).
    apply list_elem_of_filter in Hin as [H0 Hp]. apply elem_of_cells. by exists p.
  - unfold _find_blank. intros s Hret.
    destruct (filter (λ p, get b p.1 p.2 = 0) grid) as [| p rest] eqn:Hf; [done |].
    simpl in Hret. injection Hret as <-. simpl.
    assert (Hin : p ∈ filter (λ p, get b p.1 p.2 = 0) grid) by (rewrite Hf; by left).
    apply list_elem_of_filter in Hin as [H0 Hp].
    split; [done |]. split; [done |]. split; [done |]. split; [done |].
    intros q Hq Hq0.
    assert (Hsorted : StronglySorted (λ x y, (offset x.1 x.2 ≤ offset y.1 y.2)%nat)
                        (filter (λ p, get b p.1 p.2 = 0) grid)).
    { apply StronglySorted_filter_keep.
      repeat constructor; vm_compute; lia. }
    rewrite Hf in Hsorted. apply StronglySorted_inv in Hsorted as [_ Hall].
    assert (Hqin : q ∈ p :: rest) by (rewrite <- Hf; by apply list_elem_of_filter).
    apply elem_of_cons in Hqin as [-> | Hqin]; [done |].
    by apply (proj1 (Forall_forall _ _) Hall).
Qed.

(* ===================================================================== *)
(** * Further properties of the heuristics *)
(* ===================================================================== *)

Lemma foldl_pointwise {A B} (f f' : A → B → A) l a :
  (∀ a x, f a x = f' a x) → foldl f a l = foldl f' a l.
Proof.
  intros Hff. revert a. induction l as [| x l IH]; intros a; [done |].
  simpl. by rewrite Hff, IH.
Qed.

Lemma misplaced_to_sum b goal :
  misplaced_to b goal = foldl (λ acc p, acc + misplaced_delta b goal p) 0 grid.
Proof.
  unfold misplaced_to. apply foldl_pointwise. intros a p. unfold misplaced_delta.
  destruct (_ && _); lia.
Qed.

Lemma manhattan_to_sum b goal :
  manhattan_to b goal = foldl (λ acc p, acc + manhattan_delta b goal p) 0 grid.
Proof.
  unfold manhattan_to. apply foldl_pointwise. intros a p. unfold manhattan_delta.
  destruct (bool_decide _); [| lia]. destruct (_ !! _); lia.
Qed.

Lemma foldl_add_bounds (δ : Z * Z → Z) (l : list (Z * Z)) (a : Z) :
  (∀ p, p ∈ l → 0 ≤ δ p) →
  a ≤ foldl (λ acc p, acc + δ p) a l ∧
  (foldl (λ acc p, acc + δ p) a l = a ↔ ∀ p, p ∈ l → δ p = 0) ∧
  ((∀ p, p ∈ l → δ p ≤ 1) → foldl (λ acc p, acc + δ p) a l ≤ a + Z.of_nat (length l)).
Proof.
  revert a. induction l as [| x l IH]; intros a Hpos; simpl.
  { split; [lia |]. split; [| lia]. split; [| done]. intros _ p Hp.
    by apply elem_of_nil in Hp. }
  assert (Hx : 0 ≤ δ x) by (apply Hpos; by left).
  destruct (IH (a + δ x)) as (Hle & Hzero & Hone).
  { intros p Hp. apply Hpos. by right. }
  split; [lia |]. split; [split |].
  - intros Heq. assert (δ x = 0) by lia.
    assert (Hrest : ∀ p, p ∈ l → δ p = 0) by (apply Hzero; lia).
    intros p [-> | Hp]%elem_of_cons; auto.
  - intros Hall. assert (Hx0 : δ x = 0) by (apply Hall; by left).
    rewrite Hx0, Z.add_0_r. rewrite Hx0, Z.add_0_r in Hzero.
    apply Hzero. intros p Hp. apply Hall. by right.
  - intros Hall. assert (δ x ≤ 1) by (apply Hall; by left).
    assert (foldl (λ acc p, acc + δ p) (a + δ x) l ≤ a + δ x + Z.of_nat (length l))
      by (apply Hone; intros p Hp; apply Hall; by right).
    lia.
Qed.

Lemma misplaced_delta_range b goal p : 0 ≤ misplaced_delta b goal p ≤ 1.
Proof. unfold misplaced_delta. destruct (_ && _); lia. Qed.

Lemma manhattan_delta_nonneg b goal p : 0 ≤ manhattan_delta b goal p.
Proof.
  unfold manhattan_delta. destruct (bool_decide _); [| lia].
  destruct (_ !! _); lia.
Qed.

Lemma misplaced_to_range b goal : 0 ≤ misplaced_to b goal ≤ 9.
Proof.
  rewrite misplaced_to_sum.
  destruct (foldl_add_bounds (misplaced_delta b goal) grid 0) as (Hle & _ & Hone).
  { intros p _. apply misplaced_delta_range. }
  split; [done |]. apply Hone. intros p _. apply misplaced_delta_range.
Qed.

Lemma manhattan_to_nonneg b goal : 0 ≤ manhattan_to b goal.
Proof.
  rewrite manhattan_to_sum.
  apply (foldl_add_bounds (manhattan_delta b goal) grid 0).
  intros p _. apply manhattan_delta_nonneg.
Qed.

(** X7. Whatever the boards, with at least one goal both heuristics return
    an integer (never [inf]) that is at least 0, and the misplaced-tiles
    value is at most 9. *)
Theorem heuristics_range (s : State) (goals : list Board) :
  goals ≠ [] →
  ∃ d m, manhattan_distance s goals = Fin d ∧ misplaced_tiles s goals = Fin m ∧
         0 ≤ d ∧ 0 ≤ m ≤ 9.
Proof.
  intros Hne.
  destruct (running_min_is_minimum (manhattan_to (board s)) goals Hne) as (d & Hd & Hdin & _).
  destruct (running_min_is_minimum (misplaced_to (board s)) goals Hne) as (m & Hm & Hmin & _).
  exists d, m. split; [done |]. split; [done |].
  apply list_elem_of_fmap in Hdin as (g & -> & _).
  apply list_elem_of_fmap in Hmin as (g' & -> & _).
  split; [apply manhattan_to_nonneg | apply misplaced_to_range].
Qed.

Lemma heuristics_range_witness :
  ∃ d m, manhattan_distance detour_state (goal_states PuzzleGame_init) = Fin d ∧
         misplaced_tiles detour_state (goal_states PuzzleGame_init) = Fin m ∧
         0 ≤ d ∧ 0 ≤ m ≤ 9.
Proof.
  apply (heuristics_range detour_state (goal_states PuzzleGame_init)). discriminate.
Defined.

(** Two valid boards that agree on every tile agree on the blank as well. *)
Lemma valid_boards_agree b goal :
  valid_board b → valid_board goal →
  (∀ p, p ∈ grid → get b p.1 p.2 ≠ 0 → get b p.1 p.2 = get goal p.1 p.2) →
  b = goal.
Proof.
  intros Hb Hg Hagree. apply board_ext. intros p Hp.
  destruct (decide (get b p.1 p.2 = 0)) as [H0 | Hn0]; [| by apply Hagree].
  rewrite H0. symmetry.
  assert (Hin : get goal p.1 p.2 ∈ cells b).
  { apply (valid_board_occurs goal b); [done | done |]. apply elem_of_cells. by exists p. }
  apply elem_of_cells in Hin as (q & Hq & Hqv).
  destruct (decide (get b q.1 q.2 = 0)) as [Hq0 | Hqn0]; [congruence |].
  assert (q = p).
  { apply (NoDup_cell_unique goal); [by apply valid_board_NoDup | done | done |].
    rewrite <- (Hagree q Hq Hqn0). done. }
  subst q. congruence.
Qed.

Lemma misplaced_to_zero b goal :
  valid_board b → valid_board goal → misplaced_to b goal = 0 ↔ b = goal.
Proof.
  intros Hb Hg. rewrite misplaced_to_sum.
  destruct (foldl_add_bounds (misplaced_delta b goal) grid 0) as (_ & Hzero & _).
  { intros p _. apply misplaced_delta_range. }
  rewrite Hzero. split.
  - intros Hall. apply valid_boards_agree; try done. intros p Hp Hn0.
    specialize (Hall p Hp). unfold misplaced_delta in Hall.
    rewrite (bool_decide_eq_true_2 _ Hn0) in Hall. simpl in Hall.
    destruct (decide (get b p.1 p.2 = get goal p.1 p.2)) as [Heq | Hneq]; [done |].
    by rewrite (bool_decide_eq_true_2 _ Hneq) in Hall.
  - intros <- p Hp. unfold misplaced_delta.
    rewrite (bool_decide_eq_false_2 (get b p.1 p.2 ≠ get b p.1 p.2)) by (intros H; by apply H).
    by rewrite andb_false_r.
Qed.

Lemma manhattan_to_self b : NoDup (cells b) → manhattan_to b b = 0.
Proof.
  intros Hnd. rewrite manhattan_to_sum.
  apply (foldl_add_bounds (manhattan_delta b b) grid 0).
  { intros p _. apply manhattan_delta_nonneg. }
  intros p Hp. unfold manhattan_delta.
  destruct (bool_decide _); [| done].
  destruct (goal_positions b !! get b p.1 p.2) as [g |] eqn:Hg; [| done].
  rewrite goal_positions_scan in Hg.
  apply scan_lookup_Some in Hg as [(Hgin & Hgv & _) | Hg]; [| by rewrite lookup_empty in Hg].
  assert (g = p) as -> by by apply (NoDup_cell_unique b).
  lia.
Qed.

Lemma manhattan_to_zero b goal :
  valid_board b → valid_board goal → manhattan_to b goal = 0 ↔ b = goal.
Proof.
  intros Hb Hg. split.
  - intros H0. apply misplaced_to_zero; try done.
    pose proof (misplaced_to_range b goal).
    assert (misplaced_to b goal ≤ manhattan_to b goal).
    { apply misplaced_to_le_manhattan_to. intros v Hv _.
      by apply (valid_board_occurs b goal). }
    lia.
  - intros <-. by apply manhattan_to_self, valid_board_NoDup.
Qed.

Lemma running_min_zero (f : Board → Z) (goals : list Board) :
  (∀ g, g ∈ goals → 0 ≤ f g) →
  running_min f Inf goals = Fin 0 ↔ ∃ g, g ∈ goals ∧ f g = 0.
Proof.
  intros Hpos. destruct goals as [| g0 goals].
  { split; [done |]. intros (g & Hg & _). by apply elem_of_nil in Hg. }
  destruct (running_min_is_minimum f (g0 :: goals)) as (d & Hd & Hin & Hall); [done |].
  rewrite Hd. split.
  - intros [= ->]. apply list_elem_of_fmap in Hin as (g & Hfg & Hg). by exists g.
  - intros (g & Hg & Hfg). f_equal.
    assert (d ≤ 0) by (rewrite <- Hfg; apply Hall, list_elem_of_fmap; by exists g).
    apply list_elem_of_fmap in Hin as (g' & -> & Hg'). specialize (Hpos g' Hg'). lia.
Qed.

(** X8. On boards of the data model each heuristic is 0 exactly on the
    goals: [manhattan_distance] (and [misplaced_tiles]) returns 0 if and
    only if [is_goal] holds. *)
Theorem heuristics_zero_iff_goal (s : State) (goals : list Board) :
  valid_board (board s) → Forall valid_board goals →
  (manhattan_distance s goals = Fin 0 ↔ is_goal s goals = true) ∧
  (misplaced_tiles s goals = Fin 0 ↔ is_goal s goals = true).
Proof.
  intros Hs Hgoals. rewrite is_goal_elem.
  assert (Hvalid : ∀ g, g ∈ goals → valid_board g) by by apply Forall_forall.
  rewrite manhattan_distance_running_min, misplaced_tiles_running_min.
  rewrite !running_min_zero;
    [| intros g _; apply misplaced_to_range | intros g _; apply manhattan_to_nonneg].
  split; split.
  - intros (g & Hg & H0). apply manhattan_to_zero in H0; [by subst | done | by apply Hvalid].
  - intros Hin. exists (board s). split; [done |]. apply manhattan_to_zero; auto.
  - intros (g & Hg & H0). apply misplaced_to_zero in H0; [by subst | done | by apply Hvalid].
  - intros Hin. exists (board s). split; [done |]. apply misplaced_to_zero; auto.
Qed.

Lemma heuristics_zero_iff_goal_witness :
  (manhattan_distance middle_state (goal_states PuzzleGame_init) = Fin 0
     ↔ is_goal middle_state (goal_states PuzzleGame_init) = true) ∧
  (misplaced_tiles middle_state (goal_states PuzzleGame_init) = Fin 0
     ↔ is_goal middle_state (goal_states PuzzleGame_init) = true).
Proof.
  apply (heuristics_zero_iff_goal middle_state (goal_states PuzzleGame_init)).
  - exact (proj1 middle_state_valid).
  - exact goal_states_valid.
Defined.

(* ===================================================================== *)
(** * The diagnostic log accessor *)
(* ===================================================================== *)

(** X9. [get_search_tree] never invents entries: the result is a prefix of
    the log. Without [max_nodes] it is the whole log; with [max_nodes = n]
    it has [min(n, len)] entries for [n >= 0] and, by Python's slice rule,
    [max(0, len + n)] entries for a negative [n]. *)
Theorem get_search_tree_prefix (self : AStar) (max_nodes : option Z) :
  get_search_tree self max_nodes `prefix_of` search_tree self ∧
  (max_nodes = None → get_search_tree self max_nodes = search_tree self) ∧
  ∀ n, max_nodes = Some n →
       Z.of_nat (length (get_search_tree self max_nodes)) =
         if bool_decide (0 ≤ n) then Z.min n (Z.of_nat (length (search_tree self)))
         else Z.max 0 (Z.of_nat (length (search_tree self)) + n).
Proof.
  unfold get_search_tree. split; [| split].
  - destruct max_nodes as [n |]; [| done].
    destruct (bool_decide (0 ≤ n)); apply prefix_take.
  - by intros ->.
  - intros n ->. case_bool_decide; rewrite length_take; lia.
Qed.

(* ===================================================================== *)
(** * A*: what a finished run has explored and logged *)
(* ===================================================================== *)

Lemma relax_g_Some current current_g self l neighbor :
  (∀ k, k ∈ closed_set l → is_Some (g_values l !! k)) →
  is_Some (g_values (relax current current_g (self, l) neighbor).2 !! board neighbor).
Proof.
  intros Hclosed. unfold relax.
  destruct (bool_decide (board neighbor ∈ closed_set l)) eqn:Hc.
  { apply bool_decide_eq_true in Hc. by apply Hclosed. }
  destruct (g_values l !! board neighbor) as [g |] eqn:Hg.
  - destruct (current_g + 1 >=? g); simpl; [by rewrite Hg |].
    rewrite lookup_insert_eq. by eexists.
  - simpl. rewrite lookup_insert_eq. by eexists.
Qed.

Lemma relax_cover current current_g self l neighbor :
  (∀ k, is_Some (g_values l !! k) →
        k ∈ closed_set l ∨ ∃ e, e ∈ open_set l ∧ board e.2 = k) →
  (∀ k, k ∈ closed_set l → is_Some (g_values l !! k)) →
  let l' := (relax current current_g (self, l) neighbor).2 in
  (∀ k, is_Some (g_values l' !! k) →
        k ∈ closed_set l' ∨ ∃ e, e ∈ open_set l' ∧ board e.2 = k) ∧
  (∀ k, k ∈ closed_set l' → is_Some (g_values l' !! k)) ∧
  (∀ k, is_Some (g_values l !! k) → is_Some (g_values l' !! k)) ∧
  is_Some (g_values l' !! board neighbor) ∧
  closed_set l' = closed_set l.
Proof.
  intros Hq Hc l'.
  assert (Hsome : is_Some (g_values l' !! board neighbor)) by by apply relax_g_Some.
  subst l'.
  destruct (relax_cases current current_g self l neighbor) as [Heq | (Heq & Hnc & _)];
    rewrite Heq in *; simpl in *.
  { done. }
  split; [| split; [| split; [| done]]].
  - intros k Hk. destruct (decide (board neighbor = k)) as [<- | Hne].
    + right. eexists. split; [apply elem_of_heappush; by left | done].
    + rewrite lookup_insert_ne in Hk by done.
      destruct (Hq k Hk) as [? | (e & He & Hb)]; [by left |].
      right. exists e. split; [apply elem_of_heappush; by right | done].
  - intros k Hk. by apply is_Some_insert, Hc.
  - intros k Hk. by apply is_Some_insert.
Qed.

Lemma foldl_relax_cover current current_g ns self l :
  (∀ k, is_Some (g_values l !! k) →
        k ∈ closed_set l ∨ ∃ e, e ∈ open_set l ∧ board e.2 = k) →
  (∀ k, k ∈ closed_set l → is_Some (g_values l !! k)) →
  let l' := (foldl (relax current current_g) (self, l) ns).2 in
  (∀ k, is_Some (g_values l' !! k) →
        k ∈ closed_set l' ∨ ∃ e, e ∈ open_set l' ∧ board e.2 = k) ∧
  (∀ k, k ∈ closed_set l' → is_Some (g_values l' !! k)) ∧
  (∀ k, is_Some (g_values l !! k) → is_Some (g_values l' !! k)) ∧
  (∀ n, n ∈ ns → is_Some (g_values l' !! board n)).
Proof.
  revert self l. induction ns as [| n ns IH]; intros self l Hq Hc; simpl.
  { split; [done |]. split; [done |]. split; [done |]. intros n Hn.
    by apply elem_of_nil in Hn. }
  destruct (relax_cover current current_g self l n Hq Hc) as (Hq' & Hc' & Hmono & Hn & _).
  destruct (relax current current_g (self, l) n) as [self' l']. simpl in *.
  destruct (IH self' l' Hq' Hc') as (Hq'' & Hc'' & Hmono' & Hns).
  split; [done |]. split; [done |]. split; [by auto |].
  intros m [-> | Hm]%elem_of_cons; auto.
Qed.

Lemma relax_log gm n0 current current_g self l neighbor :
  search_log gm n0 self l → valid_state current → step gm current neighbor →
  search_log gm n0 (relax current current_g (self, l) neighbor).1
                   (relax current current_g (self, l) neighbor).2.
Proof.
  intros [Hedges Hparent Hcount] Hcur Hstep.
  destruct (relax_cases current current_g self l neighbor) as [-> | (-> & _ & _)];
    [done |].
  split; simpl.
  - intros pc [Hpc | ->%list_elem_of_singleton]%elem_of_app; [by apply Hedges | done].
  - intros k p Hk. destruct (decide (board neighbor = k)) as [<- | Hne].
    + rewrite lookup_insert_eq in Hk. injection Hk as <-.
      exists neighbor. split; [done |]. apply elem_of_app. right. by left.
    + rewrite lookup_insert_ne in Hk by done.
      destruct (Hparent k p Hk) as (n & Hb & Hin). exists n. split; [done |].
      apply elem_of_app. by left.
  - done.
Qed.

Lemma foldl_relax_log gm n0 current current_g ns self l :
  search_log gm n0 self l → valid_state current →
  (∀ n, n ∈ ns → step gm current n) →
  search_log gm n0 (foldl (relax current current_g) (self, l) ns).1
                   (foldl (relax current current_g) (self, l) ns).2.
Proof.
  revert self l. induction ns as [| n ns IH]; intros self l Hlog Hcur Hns; [done |].
  simpl. pose proof (relax_log gm n0 current current_g self l n Hlog Hcur) as Hlog'.
  destruct (relax current current_g (self, l) n) as [self' l']. simpl in *.
  apply IH; [| done |].
  - apply Hlog'. apply Hns. by left.
  - intros m Hm. apply Hns. by right.
Qed.

Lemma search_wf_pop gm s0 l e rest :
  search_wf gm s0 l → open_set l = e :: rest →
  search_wf gm s0 (mkLocals rest (closed_set l) (g_values l) (parent l) (counter l)).
Proof.
  intros [[] Hog Hop Hcv Hpg Hgb] Hopen. split; [split |..]; simpl; try done.
  - intros x Hx. apply inv_open0. rewrite Hopen. by right.
  - intros x Hx. apply Hog. rewrite Hopen. by right.
  - intros x Hx. apply Hop. rewrite Hopen. by right.
Qed.

(** Where a run that finishes stands: either the frontier is exhausted, or
    a goal was popped and the path is rebuilt from the parent links. *)
Lemma search_loop_end gm s0 n0 fuel self l e r :
  game self = gm → search_wf gm s0 l → search_cover gm l → search_log gm n0 self l →
  search_loop fuel self l = (e, r) → r ≠ OutOfFuel →
  ∃ l', search_wf gm s0 l' ∧ search_cover gm l' ∧ search_log gm n0 e l' ∧
    ((open_set l' = [] ∧ r = Return None) ∨
     (∃ current fuel',
        valid_state current ∧ is_goal current (goal_states gm) = true ∧
        is_Some (g_values l' !! board current) ∧
        is_Some (parent l' !! board current) ∧
        r = (path ← _reconstruct_path fuel' (parent l') current; Return (Some path)))).
Proof.
  revert self l. induction fuel as [| fuel IH];
    intros self l Hgame Hwf Hcov Hlog Hrun Hfin; simpl in Hrun.
  { injection Hrun as _ <-. done. }
  destruct (open_set l) as [| [[f c] current] rest] eqn:Hopen.
  { injection Hrun as <- <-. exists l. split; [done |]. split; [done |].
    split; [done |]. by left. }
  simpl in Hrun. rewrite Hgame in Hrun.
  assert (Hin : (f, c, current) ∈ open_set l) by (rewrite Hopen; by left).
  assert (Hcur : valid_state current).
  { by apply (inv_open _ _ _ (wf_inv _ _ _ Hwf) _ Hin). }
  pose proof (wf_open_g _ _ _ Hwf _ Hin) as Hsome. simpl in Hsome.
  pose proof (wf_open_parent _ _ _ Hwf _ Hin) as Hpar. simpl in Hpar.
  pose proof (search_wf_pop gm s0 l _ rest Hwf Hopen) as Hrest.
  set (self1 := mkAStar gm (heuristic_func self) (nodes_expanded self)
                  (Z.max (max_frontier_size self) (Z.of_nat (S (length rest))))
                  (search_tree self)) in *.
  assert (Hlog1 : ∀ l', parent l' = parent l → closed_set l' = closed_set l →
                        search_log gm n0 self1 l').
  { intros l' Hp Hc. destruct Hlog as [He Hpa Hco]. split; simpl.
    - done.
    - intros k p Hk. rewrite Hp in Hk. by apply Hpa.
    - by rewrite Hc. }
  destruct (is_goal current (goal_states gm)) eqn:Hgoal.
  { injection Hrun as <- <-. exists l. split; [done |]. split; [done |].
    split; [by apply Hlog1 |]. right. exists current, fuel. done. }
  destruct (bool_decide (board current ∈ closed_set l)) eqn:Hclosed.
  { apply bool_decide_eq_true in Hclosed.
    apply IH in Hrun; [done | done | done | | by apply Hlog1 | done].
    destruct Hcov as [Hq Hcg Hcc]. split; simpl; [| done | done].
    intros k Hk. destruct (Hq k Hk) as [? | (x & Hx & Hb)]; [by left |].
    rewrite Hopen in Hx. apply elem_of_cons in Hx as [-> | Hx].
    - left. simpl in Hb. by subst.
    - right. by exists x. }
  apply bool_decide_eq_false in Hclosed.
  destruct Hsome as [current_g Hg]. rewrite Hg in Hrun.
  destruct (get_neighbors_valid gm current Hcur) as (ns & Hns & Hvalid).
  rewrite Hns in Hrun.
  destruct (search_wf_close gm s0 rest (closed_set l) (g_values l) (parent l) (counter l)
              current current_g Hrest Hcur Hclosed Hg Hpar) as [Hwf2 Hexp2].
  set (self2 := mkAStar gm (heuristic_func self) (nodes_expanded self + 1)
                  (Z.max (max_frontier_size self) (Z.of_nat (S (length rest))))
                  (search_tree self)) in *.
  set (l2 := mkLocals rest (closed_set l ∪ {[board current]}) (g_values l) (parent l)
                      (counter l)) in *.
  assert (Hsteps : ∀ n, n ∈ ns → step gm current n) by (intros n Hn; by exists ns).
  destruct (foldl_relax_wf gm s0 current current_g ns self2 l2 Hwf2 Hexp2 Hcur Hsteps)
    as (Hwf3 & Hc3 & _).
  assert (Hlog2 : search_log gm n0 self2 l2).
  { destruct Hlog as [He Hpa Hco]. split; simpl; [done | done |].
    rewrite size_union by by apply disjoint_singleton_r.
    rewrite size_singleton. lia. }
  pose proof (foldl_relax_log gm n0 current current_g ns self2 l2 Hlog2 Hcur Hsteps) as Hlog3.
  destruct Hcov as [Hq Hcg Hcc].
  destruct (foldl_relax_cover current current_g ns self2 l2) as (Hq3 & Hcg3 & Hmono & Hnew).
  { intros k Hk. simpl in *. destruct (Hq k Hk) as [? | (x & Hx & Hb)].
    - left. apply elem_of_union. by left.
    - rewrite Hopen in Hx. apply elem_of_cons in Hx as [-> | Hx].
      + left. apply elem_of_union. right. simpl in Hb. subst. by apply elem_of_singleton.
      + right. by exists x. }
  { intros k [Hk | ->%elem_of_singleton]%elem_of_union; simpl; [by apply Hcg |].
    by eexists. }
  pose proof (proj1 (foldl_relax_game current current_g ns self2 l2)) as Hg3.
  destruct (foldl (relax current current_g) (self2, l2) ns) as [self3 l3].
  simpl in *. apply IH in Hrun; [done | done | done | | done | done].
  split; [done | done |].
  intros t Ht Hin3. rewrite Hc3 in Hin3.
  apply elem_of_union in Hin3 as [Hold | Hbt%elem_of_singleton].
  - destruct (Hcc t Ht Hold) as [Hng Hnb]. split; [done |].
    intros n Hn. by apply Hmono, Hnb.
  - assert (t = current) as -> by by apply valid_state_eq.
    split; [done |]. intros n (ns' & Hns' & Hn). rewrite Hns in Hns'.
    injection Hns' as <-. by apply Hnew.
Qed.

Lemma search_start_invariants self s0 :
  valid_state s0 →
  let l0 := mkLocals (heappush [] (heuristic_func self s0 (goal_states (game self)), 0, s0))
                     ∅ {[board s0 := 0]} {[board s0 := None]} 0 in
  search_wf (game self) s0 l0 ∧ search_cover (game self) l0.
Proof.
  intros Hs0 l0. split; [by apply search_wf_initial |]. split; simpl.
  - intros k [g Hk]. apply lookup_singleton_Some in Hk as [<- _].
    right. eexists. split; [by left | done].
  - intros k Hk. by apply not_elem_of_empty in Hk.
  - intros t _ Hk. by apply not_elem_of_empty in Hk.
Qed.

Lemma rebase_cleared self : rebase self (cleared self) = self.
Proof.
  destruct self as [g h n m t]. unfold rebase, cleared; simpl.
  f_equal; [lia | lia | by rewrite app_nil_r].
Qed.

(** What [_reconstruct_path] returns, in terms of the parent links alone. *)
Lemma reconstruct_loop_links par fuel current acc path :
  last acc = Some current → chain (flip (parent_link par)) acc →
  reconstruct_loop fuel par current acc = Return path →
  chain (parent_link par) path ∧
  (∃ first, head path = Some first ∧ par !! board first = Some None) ∧
  last path = head acc ∧
  ∀ x, x ∈ path → x ∈ acc ∨ ∃ k, par !! k = Some (Some x).
Proof.
  revert current acc. induction fuel as [| fuel IH];
    intros current acc Hlast Hchain Hrun; [done |].
  simpl in Hrun. destruct (par !! board current) as [[p |] |] eqn:Hpar; [| | done].
  - apply IH in Hrun as (Hc & Hfirst & Hl & Helem).
    + split; [done |]. split; [done |]. split.
      * rewrite Hl. by destruct acc.
      * intros x Hx. destruct (Helem x Hx) as [Hin | ?]; [| by right].
        apply elem_of_app in Hin as [? | ->%list_elem_of_singleton]; [by left |].
        right. by exists (board current).
    + by rewrite last_snoc.
    + apply chain_snoc; [done |]. intros z Hz. rewrite Hlast in Hz.
      injection Hz as <-. exact Hpar.
  - injection Hrun as <-. split; [by apply chain_reverse |]. split; [| split].
    + exists current. rewrite head_reverse. done.
    + by rewrite last_reverse.
    + intros x Hx. left. by apply elem_of_reverse.
Qed.

(** Along the parent links the recorded cost grows by one per state. *)
Lemma chain_parent_g gm s0 l path a first :
  search_wf gm s0 l → chain (parent_link (parent l)) path →
  head path = Some first → g_values l !! board first = Some a →
  ∀ i x, path !! i = Some x → g_values l !! board x = Some (a + Z.of_nat i).
Proof.
  intros Hwf. revert a first. induction path as [| y path IH];
    intros a first Hchain Hhead Ha i x Hx; [done |].
  simpl in Hhead. injection Hhead as ->.
  destruct i as [| i]; simpl in Hx.
  { injection Hx as <-. by rewrite Z.add_0_r. }
  destruct Hchain as [Hlink Hchain]. destruct path as [| z path]; [done |].
  destruct (wf_parent_g _ _ _ Hwf _ _ Hlink) as (_ & _ & gp & Hgp & Hgz).
  rewrite Ha in Hgp. injection Hgp as <-.
  rewrite (IH (a + 1) z Hchain eq_refl Hgz i x Hx). f_equal. lia.
Qed.

Lemma search_end fuel self s0 :
  valid_state s0 → (search fuel self s0).2 ≠ OutOfFuel →
  ∃ l' a',
    (search fuel self s0).1 = rebase self a' ∧
    search_wf (game self) s0 l' ∧ search_cover (game self) l' ∧
    search_log (game self) 0 a' l' ∧
    ((open_set l' = [] ∧ (search fuel self s0).2 = Return None) ∨
     (∃ current fuel',
        valid_state current ∧ is_goal current (goal_states (game self)) = true ∧
        is_Some (g_values l' !! board current) ∧
        is_Some (parent l' !! board current) ∧
        (search fuel self s0).2 =
          (path ← _reconstruct_path fuel' (parent l') current; Return (Some path)))).
Proof.
  intros Hs0 Hfin.
  pose proof (search_rebase self fuel (cleared self) s0) as Hframe.
  rewrite rebase_cleared in Hframe. rewrite Hframe in *. clear Hframe.
  unfold rebase_result in *. simpl in *.
  destruct (search_start_invariants (cleared self) s0 Hs0) as [Hwf0 Hcov0].
  unfold search in *. simpl in *.
  match type of Hfin with
  | (search_loop _ _ ?l0).2 ≠ _ =>
      destruct (search_loop fuel (cleared self) l0) as [e r] eqn:Hrun
  end.
  simpl in *.
  destruct (search_loop_end (game self) s0 0 fuel (cleared self) _ e r
              eq_refl Hwf0 Hcov0) as (l' & Hwf & Hcov & Hlog & Hcases); try done.
  { split; simpl; [| | done].
    - intros pc Hpc. by apply elem_of_nil in Hpc.
    - intros k p Hk. apply lookup_singleton_Some in Hk. by destruct Hk. }
  exists l', e. done.
Qed.

(** X10. For every valid initial state [search] stops and raises nothing:
    there is a number of loop iterations after which the call has returned
    a path or "no solution", the same for any larger bound. *)
Theorem search_returns (self : AStar) (s0 : State) :
  valid_state s0 →
  ∃ fuel r, ∀ fuel', (fuel ≤ fuel')%nat → (search fuel' self s0).2 = Return r.
Proof. apply search_total. Qed.

Lemma search_returns_witness :
  valid_state detour_state ∧
  ∃ fuel r, ∀ fuel', (fuel ≤ fuel')%nat →
    (search fuel' (AStar_init PuzzleGame_init misplaced_tiles) detour_state).2 = Return r.
Proof.
  assert (Hv : valid_state detour_state).
  { unfold valid_state, valid_board, in_range; simpl.
    split; [| lia]. apply (bool_decide_unpack _). by vm_compute. }
  split; [exact Hv |].
  exact (search_returns (AStar_init PuzzleGame_init misplaced_tiles) detour_state Hv).
Defined.

(** The states of a reconstructed path are valid. *)
Lemma reconstructed_valid gm s0 l current fuel path :
  search_wf gm s0 l → valid_state current →
  _reconstruct_path fuel (parent l) current = Return path →
  chain (parent_link (parent l)) path ∧
  (∃ first, head path = Some first ∧ board first = board s0) ∧
  last path = Some current ∧
  ∀ x, x ∈ path → valid_state x.
Proof.
  intros Hwf Hcur Hrec. unfold _reconstruct_path in Hrec.
  apply reconstruct_loop_links in Hrec as (Hchain & (first & Hhead & Hnone) & Hlast & Helem);
    [| done | done].
  split; [done |]. split; [| split; [done |]].
  - exists first. split; [done |].
    by apply (inv_root_only _ _ _ (wf_inv _ _ _ Hwf)).
  - intros x Hx. destruct (Helem x Hx) as [->%list_elem_of_singleton | [k Hk]]; [done |].
    by destruct (inv_parent _ _ _ (wf_inv _ _ _ Hwf) _ _ Hk).
Qed.

(** X11. In a run that finishes from a valid initial state, every pair
    [(parent, child)] appended to [search_tree] is a transition of the move
    model from a valid state, and a returned path is a branch of that
    log: each consecutive pair of the path is one of the appended
    entries. *)
Theorem search_tree_sound (fuel : nat) (self : AStar) (s0 : State) :
  valid_state s0 → (search fuel self s0).2 ≠ OutOfFuel →
  ∃ added,
    search_tree (search fuel self s0).1 = search_tree self ++ added ∧
    (∀ p c, (p, c) ∈ added → valid_state p ∧ step (game self) p c) ∧
    (∀ path, (search fuel self s0).2 = Return (Some path) →
       ∀ i p q, path !! i = Some p → path !! S i = Some q → (p, q) ∈ added).
Proof.
  intros Hs0 Hfin.
  destruct (search_end fuel self s0 Hs0 Hfin) as (l' & a' & He & Hwf & Hcov & Hlog & Hcases).
  exists (search_tree a'). split; [by rewrite He |]. split.
  - intros p c Hpc. by apply (log_edges _ _ _ _ Hlog (p, c)).
  - intros path Hpath i p q Hp Hq.
    destruct Hcases as [[_ Hnone] | (current & fuel' & Hcur & _ & _ & _ & Hr)];
      [congruence |].
    rewrite Hpath in Hr.
    destruct (_reconstruct_path fuel' (parent l') current) as [path' | |] eqn:Hrec;
      try done.
    simpl in Hr. injection Hr as <-.
    destruct (reconstructed_valid _ _ _ _ _ _ Hwf Hcur Hrec) as (Hchain & _ & _ & Hvalid).
    pose proof (chain_lookup _ _ _ _ _ Hchain Hp Hq) as Hlink.
    destruct (log_parent _ _ _ _ Hlog _ _ Hlink) as (n & Hb & Hin).
    destruct (log_edges _ _ _ _ Hlog _ Hin) as [Hpv Hstep]. simpl in *.
    assert (n = q) as ->; [| done].
    apply valid_state_eq; [by apply (step_valid (game self) p) | | done].
    apply Hvalid. apply list_elem_of_lookup. by exists (S i).
Qed.

Lemma search_tree_sound_witness :
  ∃ added,
    search_tree (search 10 (AStar_init PuzzleGame_init manhattan_distance) middle_state).1
      = search_tree (AStar_init PuzzleGame_init manhattan_distance) ++ added ∧
    (∀ p c, (p, c) ∈ added → valid_state p ∧ step PuzzleGame_init p c) ∧
    (∀ path,
       (search 10 (AStar_init PuzzleGame_init manhattan_distance) middle_state).2
         = Return (Some path) →
       ∀ i p q, path !! i = Some p → path !! S i = Some q → (p, q) ∈ added).
Proof.
  apply (search_tree_sound 10 (AStar_init PuzzleGame_init manhattan_distance) middle_state).
  - exact middle_state_valid.
  - vm_compute. discriminate.
Defined.

(** With the frontier exhausted, the explored set is closed under moves and
    holds no goal. *)
Lemma explored_no_goal gm s0 l :
  search_wf gm s0 l → search_cover gm l → open_set l = [] →
  ∀ k t, reaches_goal gm k t → valid_state t → board t ∈ closed_set l → False.
Proof.
  intros Hwf Hcov Hopen k t Hreach.
  induction Hreach as [t Hgoal | k t n Hstep Hreach IH]; intros Ht Hin.
  - destruct (cov_closed _ _ Hcov t Ht Hin) as [Hng _]. congruence.
  - destruct (cov_closed _ _ Hcov t Ht Hin) as [_ Hnb].
    apply IH; [by apply (step_valid gm t) |].
    destruct (cov_g _ _ Hcov _ (Hnb n Hstep)) as [? | (e & He & _)]; [done |].
    rewrite Hopen in He. by apply elem_of_nil in He.
Qed.

(** A run that ends with "no solution" has explored everything that can be
    reached and found no goal in it. *)
Lemma search_none_no_goal (fuel : nat) (self : AStar) (s0 : State) :
  valid_state s0 → (search fuel self s0).2 = Return None →
  ∀ k, ¬ reaches_goal (game self) k s0.
Proof.
  intros Hs0 Hnone k Hreach.
  destruct (search_end fuel self s0 Hs0) as (l' & a' & _ & Hwf & Hcov & _ & Hcases).
  { by rewrite Hnone. }
  destruct Hcases as [[Hopen _] | (current & fuel' & _ & _ & _ & _ & Hr)].
  - apply (explored_no_goal _ _ _ Hwf Hcov Hopen k s0 Hreach Hs0).
    pose proof (inv_g_root _ _ _ (wf_inv _ _ _ Hwf)) as Hg.
    destruct (cov_g _ _ Hcov (board s0)) as [? | (e & He & _)]; [by eexists | done |].
    rewrite Hopen in He. by apply elem_of_nil in He.
  - rewrite Hnone in Hr.
    by destruct (_reconstruct_path fuel' (parent l') current).
Qed.

(** X12. [search] is complete: from a valid initial state from which some
    goal of the game can be reached by slide-plus-swap transitions, it
    terminates and returns a path; it does not give up with [None], raise,
    or run forever. *)
Theorem search_finds_reachable_goal (self : AStar) (s0 : State) (k : nat) :
  valid_state s0 → reaches_goal (game self) k s0 →
  ∃ fuel path,
    ∀ fuel', (fuel ≤ fuel')%nat → (search fuel' self s0).2 = Return (Some path).
Proof.
  intros Hs0 Hreach.
  destruct (search_total self s0 Hs0) as (fuel & [path |] & Hr).
  - by exists fuel, path.
  - exfalso.
    exact (search_none_no_goal fuel self s0 Hs0 (Hr fuel (le_n fuel)) k Hreach).
Qed.

Lemma search_finds_reachable_goal_witness :
  valid_state middle_state ∧
  reaches_goal PuzzleGame_init 2 middle_state ∧
  ∃ fuel path,
    ∀ fuel', (fuel ≤ fuel')%nat →
      (search fuel' (AStar_init PuzzleGame_init manhattan_distance) middle_state).2
        = Return (Some path).
Proof.
  assert (Hreach : reaches_goal PuzzleGame_init 2 middle_state).
  { apply (reaches_step _ 1 _ (mkState (mkBoard 1 2 3 4 5 0 7 8 6) (1, 2)));
      [apply stepb_step; by vm_compute |].
    apply (reaches_step _ 0 _ (mkState (mkBoard 1 2 3 4 5 6 7 8 0) (2, 2)));
      [apply stepb_step; by vm_compute |].
    apply reaches_here. by vm_compute. }
  split; [exact middle_state_valid |]. split; [exact Hreach |].
  exact (search_finds_reachable_goal (AStar_init PuzzleGame_init manhattan_distance)
           middle_state 2 middle_state_valid Hreach).
Defined.

(** X13. A path returned from a valid initial state visits no board twice,
    and its number of moves is at most the number of expansions of that
    run. *)
Theorem search_path_simple (fuel : nat) (self : AStar) (s0 : State) (path : list State) :
  valid_state s0 → (search fuel self s0).2 = Return (Some path) →
  NoDup (board <$> path) ∧
  Z.of_nat (length path) - 1
    ≤ nodes_expanded (search fuel self s0).1 - nodes_expanded self.
Proof.
  intros Hs0 Hpath.
  destruct (search_end fuel self s0 Hs0) as (l' & a' & He & Hwf & Hcov & Hlog & Hcases).
  { by rewrite Hpath. }
  destruct Hcases as [[_ Hnone] | (current & fuel' & Hcur & _ & _ & _ & Hr)];
    [congruence |].
  rewrite Hpath in Hr.
  destruct (_reconstruct_path fuel' (parent l') current) as [path' | |] eqn:Hrec; try done.
  simpl in Hr. injection Hr as <-.
  destruct (reconstructed_valid _ _ _ _ _ _ Hwf Hcur Hrec)
    as (Hchain & (first & Hhead & Hfirst) & Hlast & _).
  assert (Hg0 : g_values l' !! board first = Some 0).
  { rewrite Hfirst. apply (inv_g_root _ _ _ (wf_inv _ _ _ Hwf)). }
  pose proof (chain_parent_g _ _ _ _ _ _ Hwf Hchain Hhead Hg0) as Hidx.
  split.
  - apply NoDup_alt. intros i j k Hi Hj.
    apply list_lookup_fmap_Some in Hi as (x & -> & Hx).
    apply list_lookup_fmap_Some in Hj as (y & Hxy & Hy).
    pose proof (Hidx i x Hx) as Hgi. pose proof (Hidx j y Hy) as Hgj.
    rewrite Hxy, Hgj in Hgi. injection Hgi. lia.
  - rewrite He. simpl.
    rewrite last_lookup in Hlast.
    destruct path as [| x path]; [done |].
    pose proof (Hidx _ _ Hlast) as Hg. simpl in Hg.
    pose proof (wf_g_bound _ _ _ Hwf _ _ Hg) as Hbound.
    pose proof (log_count _ _ _ _ Hlog). simpl. lia.
Qed.

Lemma search_path_simple_witness :
  ∃ path,
    (search 100 (AStar_init PuzzleGame_init manhattan_distance) detour_state).2
      = Return (Some path) ∧
    NoDup (board <$> path) ∧
    Z.of_nat (length path) - 1
      ≤ nodes_expanded (search 100 (AStar_init PuzzleGame_init manhattan_distance)
                          detour_state).1
        - nodes_expanded (AStar_init PuzzleGame_init manhattan_distance).
Proof.
  eexists. split; [vm_compute; reflexivity |].
  apply (search_path_simple 100 (AStar_init PuzzleGame_init manhattan_distance) detour_state).
  - unfold valid_state, valid_board, in_range; simpl.
    split; [| lia]. apply (bool_decide_unpack _). by vm_compute.
  - vm_compute; reflexivity.
Defined.

(* ===================================================================== *)
(** * Generating states and drawing the log *)
(* ===================================================================== *)

Lemma of_cells_cells nums b : of_cells nums = Some b → cells b = nums.
Proof.
  destruct nums as [| a [| b0 [| c [| d [| e [| f [| g [| h [| i [| j nums]]]]]]]]]];
    intros Hb; simpl in Hb; by simplify_eq.
Qed.

Lemma of_cells_length nums : length nums = 9%nat → is_Some (of_cells nums).
Proof.
  destruct nums as [| a [| b0 [| c [| d [| e [| f [| g [| h [| i [| j nums]]]]]]]]]];
    intros Hlen; simpl in Hlen; try lia. by eexists.
Qed.

(** X14. Whatever the shuffle produced, [generate_random_state] builds a
    state that satisfies the data-model invariant and holds the shuffled
    values row by row; and [generate_solvable_state] returns the state of
    its first draw, since [is_solvable] accepts everything. *)
Theorem generate_solvable_state_first_draw (game : PuzzleGame) (nums : list Z)
    (draws : list (list Z)) :
  nums ≡ₚ [0; 1; 2; 3; 4; 5; 6; 7; 8] →
  ∃ state,
    generate_random_state nums = Some (Return state) ∧
    generate_solvable_state game (nums :: draws) = Some (Return state) ∧
    valid_state state ∧ cells (board state) = nums.
Proof.
  intros Hperm.
  destruct (of_cells_length nums) as [b Hb].
  { by rewrite Hperm. }
  pose proof (of_cells_cells nums b Hb) as Hcells.
  destruct (find_blank_cases b) as [(p & Hfind & Hp & H0) | [_ Hno]].
  - exists (mkState b p).
    assert (Hgen : generate_random_state nums = Some (Return (mkState b p))).
    { unfold generate_random_state. rewrite Hb. simpl. unfold State_init.
      rewrite np_array_valid by (unfold valid_board; by rewrite Hcells).
      simpl. by rewrite Hfind. }
    split; [done |]. split; [simpl; by rewrite Hgen |]. split; [| done].
    apply grid_in_range in Hp as [Hp1 Hp2]. unfold valid_state, valid_board; simpl.
    split; [by rewrite Hcells |]. split; [done |]. split; done.
  - exfalso. apply Hno. rewrite Hcells, Hperm.
    apply (bool_decide_unpack _). by vm_compute.
Qed.

Lemma generate_solvable_state_first_draw_witness :
  ∃ state,
    generate_random_state [3; 4; 1; 2; 6; 8; 7; 0; 5] = Some (Return state) ∧
    generate_solvable_state PuzzleGame_init ([3; 4; 1; 2; 6; 8; 7; 0; 5] :: []) =
      Some (Return state) ∧
    valid_state state ∧ cells (board state) = [3; 4; 1; 2; 6; 8; 7; 0; 5].
Proof.
  apply (generate_solvable_state_first_draw PuzzleGame_init [3; 4; 1; 2; 6; 8; 7; 0; 5] []).
  apply (bool_decide_unpack _). by vm_compute.
Defined.

(** X15. The two places that cut the diagnostic log agree: drawing the
    whole log with [max_nodes = n] adds the same edges, in the same order,
    as drawing [get_search_tree(n)] without a limit, for every integer [n];
    and no more than [n] edges are drawn when [n >= 0]. *)
Theorem visualize_search_tree_cut (self : AStar) (n : Z) :
  create_tree_visualization_function n (search_tree self) =
    visualize_search_tree (get_search_tree self (Some n)) None ∧
  (0 ≤ n → Z.of_nat (length (create_tree_visualization_function n (search_tree self))) ≤ n).
Proof.
  unfold create_tree_visualization_function, visualize_search_tree, get_search_tree.
  split.
  - f_equal. case_bool_decide as Hlt; [done |].
    case_bool_decide; symmetry; apply take_ge; lia.
  - intros Hn. rewrite length_fmap.
    rewrite (bool_decide_eq_true_2 (0 ≤ n)) by done.
    case_bool_decide; [rewrite length_take |]; lia.
Qed.
